(** * google_calendar_ooo_report

    A shallow embedding of [bin/google_calendar_ooo_report.py].

    The script authenticates against the calendar API, lists the upcoming
    events of every configured calendar, keeps the "out of office" ones and
    prints the resulting mapping.  The embedding follows the script line by
    line: Python exceptions are the left summand of [result], the token
    file, standard output and the calls made to the outside world are
    fields of an explicit [State], and the Google client libraries are a
    record of oracles acting on an abstract world. *)

From Stdlib Require Import Ascii String ZArith.
From stdpp Require Import base option list strings gmap.

Local Open Scope string_scope.

(** ** Exceptions and results *)

(** The exceptions the script can meet.  [HttpError] is the only one
    [main] handles; [OtherError] stands for everything the libraries may
    raise besides (RefreshError, FileNotFoundError, ValueError, ...). *)
Inductive exn : Type :=
  | HttpError (detail : string)
  | KeyError (key : string)
  | AttributeError (attr : string)
  | OtherError (name : string).

(** An expression either raises ([inl]) or returns a value ([inr]). *)
Definition result (A : Type) : Type := (exn + A)%type.

Definition raise {A : Type} (e : exn) : result A := inl e.
Definition ok {A : Type} (a : A) : result A := inr a.

Definition rbind {A B : Type} (m : result A) (f : A -> result B) : result B :=
  match m with
  | inl e => inl e
  | inr a => f a
  end.

Declare Scope result_scope.
Delimit Scope result_scope with res.
Notation "'let?' x := m 'in' k" := (rbind m (fun x => k))
  (at level 10, x name, m at level 100, k at level 200) : result_scope.
Local Open Scope result_scope.

(** ** Strings *)

(** Python's [needle in hay] on [str]: some suffix of [hay] starts with
    [needle]. *)
Fixpoint contains (needle hay : string) : bool :=
  if String.prefix needle hay then true
  else match hay with
       | EmptyString => false
       | String _ hay' => contains needle hay'
       end.

(** [str.lower] restricted to ASCII letters; the scenarios of the
    specification only use such strings.  The general development below
    takes [lower] as a parameter. *)
Definition ascii_lower (c : ascii) : ascii :=
  let n := nat_of_ascii c in
  if (65 <=? n)%nat && (n <=? 90)%nat then ascii_of_nat (n + 32) else c.

Fixpoint lower_ascii (s : string) : string :=
  match s with
  | EmptyString => EmptyString
  | String c s' => String (ascii_lower c) (lower_ascii s')
  end.

(** ** Events *)

(** A JSON value as far as the script tells them apart: it compares a
    field with a [str] and calls [.lower()] on one. *)
Inductive value : Type :=
  | VStr (s : string)
  | VOther.

(** An event is the JSON object the API returned, a Python [dict]. *)
Abbreviation event := (gmap string value).

(** [event[key]] *)
Definition getitem (e : event) (key : string) : result value :=
  match e !! key with
  | Some v => ok v
  | None => raise (KeyError key)
  end.

(** [v == s] for a [str] literal [s]; never raises. *)
Definition eq_str (v : value) (s : string) : bool :=
  match v with
  | VStr t => bool_decide (t = s)
  | VOther => false
  end.

(** The settings of [settings.yml], as [settings()] returns them on every
    call ([lru_cache]). *)
Record Settings : Type := {
  calendar_id : list string;
  keywords : list string
}.

Section Filter.

(** [str.lower] *)
Variable lower : string -> string.

(** [v.lower()] *)
Definition value_lower (v : value) : result string :=
  match v with
  | VStr s => ok (lower s)
  | VOther => raise (AttributeError "lower")
  end.

(** [any(keyword.lower() in event["summary"].lower() for keyword in kws)]:
    the generator looks [event["summary"]] up once per keyword it
    reaches, and [any] stops at the first hit. *)
Fixpoint any_keyword (e : event) (kws : list string) : result bool :=
  match kws with
  | [] => ok false
  | keyword :: kws' =>
      let needle := lower keyword in
      let? v := getitem e "summary" in
      let? hay := value_lower v in
      if contains needle hay then ok true else any_keyword e kws'
  end.

(** The condition of the comprehension, lines 69-70. *)
Definition qualifies (kws : list string) (e : event) : result bool :=
  let? ty := getitem e "eventType" in
  if eq_str ty "outOfOffice" then ok true else any_keyword e kws.

(** The comprehension of lines 67-71: it raises as soon as the condition
    raises on an event. *)
Fixpoint filter_events (kws : list string) (events : list event)
  : result (list event) :=
  match events with
  | [] => ok []
  | e :: events' =>
      let? keep := qualifies kws e in
      let? rest := filter_events kws events' in
      ok (if keep then e :: rest else rest)
  end.

End Filter.

(** ** The outside world *)

(** Credentials as far as [main] looks at them.  [expired] is the value
    of the property of that name at the time [main] reads it. *)
Record Credentials : Type := {
  token : option string;
  refresh_token : option string;
  expired : bool
}.

(** [creds.valid], which google.oauth2 defines as
    [self.token is not None and not self.expired]. *)
Definition valid (creds : Credentials) : bool :=
  match token creds with
  | Some _ => negb (expired creds)
  | None => false
  end.

(** Truth value of an optional [str]: [None] and the empty string are
    false. *)
Definition truthy (o : option string) : bool :=
  match o with
  | Some s => negb (bool_decide (s = ""))
  | None => false
  end.

(** The arguments of [service.events().list(...)], lines 51-58. *)
Record ListRequest : Type := {
  calendarId : string;
  timeMin : string;
  maxResults : Z;
  singleEvents : bool;
  orderBy : string
}.

(** The [dict] that [.execute()] returns; only its "items" key is read. *)
Record Response : Type := { items : option (list event) }.

(** [events_result.get("items", [])] *)
Definition get_items (events_result : Response) : list event :=
  default [] (items events_result).

(** The mapping [ooo_events]. *)
Abbreviation report := (gmap string (list event)).

(** What [print] wrote: the [repr] of the report, kept as the mapping
    itself, or a line of text. *)
Inductive printed : Type :=
  | PrintedReport (calendars : report)
  | PrintedText (line : string).

(** The calls to the outside that the claims count. *)
Inductive call : Type :=
  | CallRefresh
  | CallRunLocalServer
  | CallExecute (request : ListRequest) (outcome : result Response).

(** The library functions the script calls, over an abstract world [W]
    (authorization server, calendar service, clock, file system apart
    from the token file).  [flow.run_local_server(port=0)] prints its
    authorization prompt on standard output before it waits for the
    callback: [flow_prompt] gives the lines it prints in the world it is
    called in (none when it fails before printing), [run_local_server]
    what it then returns or raises.  No other library call writes to
    standard output. *)
Record Externals (W : Type) : Type := {
  str_lower : string -> string;
  from_authorized_user_file : string -> W -> result Credentials * W;
  refresh : Credentials -> W -> result Credentials * W;
  from_client_secrets_file : W -> result unit * W;
  run_local_server : W -> result Credentials * W;
  flow_prompt : W -> list string;
  to_json : Credentials -> string;
  build : Credentials -> W -> result unit * W;
  utcnow : W -> string * W;
  execute : ListRequest -> W -> result Response * W
}.

Arguments str_lower {W} _ _.
Arguments from_authorized_user_file {W} _ _ _.
Arguments refresh {W} _ _ _.
Arguments from_client_secrets_file {W} _ _.
Arguments run_local_server {W} _ _.
Arguments flow_prompt {W} _ _.
Arguments to_json {W} _ _.
Arguments build {W} _ _ _.
Arguments utcnow {W} _ _.
Arguments execute {W} _ _ _.

(** ** Program state *)

Record State (W : Type) : Type := {
  world : W;
  token_file : option string;   (* contents of store/token.json, if it exists *)
  stdout : list printed;        (* oldest first *)
  calls : list call             (* oldest first *)
}.

Arguments world {W} _.
Arguments token_file {W} _.
Arguments stdout {W} _.
Arguments calls {W} _.

(** A computation may raise and changes the state either way. *)
Definition M (W A : Type) : Type := State W -> result A * State W.

Definition ret {W A : Type} (a : A) : M W A := fun s => (inr a, s).

Definition bind {W A B : Type} (m : M W A) (f : A -> M W B) : M W B :=
  fun s =>
    match m s with
    | (inl e, s') => (inl e, s')
    | (inr a, s') => f a s'
    end.

(** [try: body except HttpError as error: handler(str(error))] *)
Definition try_except_HttpError {W A : Type}
    (body : M W A) (handler : string -> M W A) : M W A :=
  fun s =>
    match body s with
    | (inl (HttpError detail), s') => handler detail s'
    | other => other
    end.

Definition lift {W A : Type} (r : result A) : M W A := fun s => (r, s).

(** A library call that may raise. *)
Definition extern {W A : Type} (f : W -> result A * W) : M W A :=
  fun s =>
    let (r, w) := f (world s) in
    (r, {| world := w; token_file := token_file s;
           stdout := stdout s; calls := calls s |}).

Definition log {W : Type} (c : call) : M W unit :=
  fun s =>
    (inr tt, {| world := world s; token_file := token_file s;
                stdout := stdout s; calls := calls s ++ [c] |}).

Definition print {W : Type} (p : printed) : M W unit :=
  fun s =>
    (inr tt, {| world := world s; token_file := token_file s;
                stdout := stdout s ++ [p]; calls := calls s |}).

(** [with open("store/token.json", "w") as token: token.write(text)] *)
Definition write_token {W : Type} (text : string) : M W unit :=
  fun s =>
    (inr tt, {| world := world s; token_file := Some text;
                stdout := stdout s; calls := calls s |}).

Declare Scope prog_scope.
Delimit Scope prog_scope with prog.
Notation "'let!' x := m 'in' k" := (bind m (fun x => k))
  (at level 10, x name, m at level 100, k at level 200) : prog_scope.

(** How the process ended. *)
Record Outcome (W : Type) : Type := {
  exit_status : Z;
  uncaught : option exn;        (* the exception that left [main], if any *)
  final : State W
}.

Arguments exit_status {W} _.
Arguments uncaught {W} _.
Arguments final {W} _.

(** ** The script *)

Section Script.

Context {W : Type}.
Variable ext : Externals W.
Variable cfg : Settings.

Local Open Scope prog_scope.

(** Lines 22-27: [creds] stays [None] when the token file is absent. *)
Definition load_token : M W (option Credentials) :=
  fun s =>
    match token_file s with
    | Some text =>
        (let! creds := extern (from_authorized_user_file ext text) in
         ret (Some creds)) s
    | None => ret None s
    end.

(** Line 31: [creds.refresh(Request())] updates [creds] in place. *)
Definition do_refresh (creds : Credentials) : M W Credentials :=
  let! _ := log CallRefresh in
  extern (refresh ext creds).

(** Line 36: [flow.run_local_server(port=0)], with the prompt it prints. *)
Definition run_flow : M W Credentials :=
  fun s =>
    let (r, w) := run_local_server ext (world s) in
    (r, {| world := w; token_file := token_file s;
           stdout := stdout s ++ map PrintedText (flow_prompt ext (world s));
           calls := calls s |}).

(** Lines 33-36. *)
Definition interactive_flow : M W Credentials :=
  let! _ := extern (from_client_secrets_file ext) in
  let! _ := log CallRunLocalServer in
  run_flow.

(** Lines 30-39, the body of [if not creds or not creds.valid]. *)
Definition login (creds : option Credentials) : M W Credentials :=
  let! creds' :=
    match creds with
    | Some c =>
        if expired c && truthy (refresh_token c)
        then do_refresh c
        else interactive_flow
    | None => interactive_flow
    end in
  let! _ := write_token (to_json ext creds') in
  ret creds'.

(** Lines 22-39. *)
Definition authorize : M W Credentials :=
  let! creds := load_token in
  match creds with
  | Some c => if valid c then ret c else login creds
  | None => login creds
  end.

(** Lines 47-60: one query, recorded with its outcome. *)
Definition list_events (calendar : string) : M W Response :=
  fun s =>
    let (now, w) := utcnow ext (world s) in
    let request := {| calendarId := calendar; timeMin := now;
                      maxResults := 10; singleEvents := true;
                      orderBy := "startTime" |} in
    let (outcome, w') := execute ext request w in
    (outcome, {| world := w'; token_file := token_file s;
                 stdout := stdout s;
                 calls := calls s ++ [CallExecute request outcome] |}).

(** Lines 45-71, the [for] loop over [settings()["calendar_id"]]. *)
Fixpoint fetch_loop (calendars : list string) (ooo_events : report)
  : M W report :=
  match calendars with
  | [] => ret ooo_events
  | calendar :: calendars' =>
      let! events_result := list_events calendar in
      let events := get_items events_result in
      match events with
      | [] => fetch_loop calendars' ooo_events
      | _ :: _ =>
          let! kept :=
            lift (filter_events (str_lower ext) (keywords cfg) events) in
          fetch_loop calendars' (<[calendar := kept]> ooo_events)
      end
  end.

(** Line 91. *)
Definition print_report (calendars : report) : M W unit :=
  print (PrintedReport calendars).

(** Lines 42-73, the body of [try]. *)
Definition try_body (creds : Credentials) : M W unit :=
  let! _ := extern (build ext creds) in
  let! ooo_events := fetch_loop (calendar_id cfg) ∅ in
  print_report ooo_events.

(** Lines 80-81. *)
Definition except_HttpError (error : string) : M W unit :=
  print (PrintedText ("An error occurred: " +:+ error)).

(** Lines 18-81. *)
Definition main : M W unit :=
  let! creds := authorize in
  try_except_HttpError (try_body creds) except_HttpError.

(** The process: [main()] under [if __name__ == "__main__"].  When
    [main] returns the interpreter exits with status 0; an exception
    that leaves [main] is reported by the interpreter, which exits with
    status 1. *)
Definition run (s : State W) : Outcome W :=
  match main s with
  | (inr _, s') => {| exit_status := 0; uncaught := None; final := s' |}
  | (inl e, s') => {| exit_status := 1; uncaught := Some e; final := s' |}
  end.

End Script.

(** The state in which the process starts. *)
Definition initial {W : Type} (w : W) (token_json : option string) : State W :=
  {| world := w; token_file := token_json; stdout := []; calls := [] |}.

(** ** A concrete world for the scenarios *)

Module Scenario.

Definition vacation : event :=
  {[ "eventType" := VStr "default"; "summary" := VStr "Team Vacation" ]}.
Definition standup : event :=
  {[ "eventType" := VStr "default"; "summary" := VStr "Standup" ]}.
Definition away : event :=
  {[ "eventType" := VStr "outOfOffice"; "summary" := VStr "Anything" ]}.
(** An event without a title: the API leaves "summary" out. *)
Definition untitled : event :=
  {[ "eventType" := VStr "default"; "start" := VOther ]}.
Definition typeless : event :=
  {[ "summary" := VStr "vacation" ]}.

Definition cfg : Settings :=
  {| calendar_id := ["team"; "empty"; "quiet"; "bare"];
     keywords := ["Vacation"] |}.

Definition fresh : Credentials :=
  {| token := Some "fresh"; refresh_token := Some "r1"; expired := false |}.
Definition stale : Credentials :=
  {| token := Some "stale"; refresh_token := Some "r1"; expired := true |}.
Definition granted : Credentials :=
  {| token := Some "granted"; refresh_token := Some "r2"; expired := false |}.

Definition parse_token (text : string) (w : unit) : result Credentials * unit :=
  if bool_decide (text = "fresh") then (ok fresh, w)
  else if bool_decide (text = "stale") then (ok stale, w)
  else (raise (OtherError "ValueError"), w).

Definition serve (request : ListRequest) (w : unit) : result Response * unit :=
  let c := calendarId request in
  if bool_decide (c = "team")
  then (ok {| items := Some [vacation; standup; away] |}, w)
  else if bool_decide (c = "quiet") then (ok {| items := Some [standup] |}, w)
  else if bool_decide (c = "empty") then (ok {| items := Some [] |}, w)
  else if bool_decide (c = "bare") then (ok {| items := None |}, w)
  else if bool_decide (c = "untitled")
  then (ok {| items := Some [untitled] |}, w)
  else (raise (HttpError "<HttpError 404 Not Found>"), w).

Definition prompt : string :=
  "Please visit this URL to authorize this application: https://accounts.example/auth".

Definition ext : Externals unit :=
  {| str_lower := lower_ascii;
     from_authorized_user_file := parse_token;
     refresh := fun c w =>
       (ok {| token := Some "fresh"; refresh_token := refresh_token c;
              expired := false |}, w);
     from_client_secrets_file := fun w => (ok tt, w);
     run_local_server := fun w => (ok granted, w);
     flow_prompt := fun _ => [prompt];
     to_json := fun c => default "" (token c);
     build := fun _ w => (ok tt, w);
     utcnow := fun w => ("2024-01-01T00:00:00+00:00", w);
     execute := serve |}.

(** The request the script sends for a calendar in this world. *)
Definition request (calendar : string) : ListRequest :=
  {| calendarId := calendar; timeMin := "2024-01-01T00:00:00+00:00";
     maxResults := 10; singleEvents := true; orderBy := "startTime" |}.

Definition not_found : exn := HttpError "<HttpError 404 Not Found>".

(** The report of a run over [cfg]. *)
Definition expected_report : report :=
  {[ "team" := [vacation; away]; "quiet" := [] ]}.

(** Settings whose second calendar the API refuses. *)
Definition cfg_broken : Settings :=
  {| calendar_id := ["team"; "broken"; "quiet"];
     keywords := ["Vacation"] |}.

(** Settings with a calendar holding an untitled event. *)
Definition cfg_untitled : Settings :=
  {| calendar_id := ["team"; "untitled"; "quiet"];
     keywords := ["Vacation"] |}.

End Scenario.

(** ** The settings file *)

(** [settings.yml] as [yaml.safe_load] returns it.  The document is taken
    to have the shape the script expects, a mapping of mappings from keys
    to sequences of strings; a missing key is in the model, YAML values
    of other types are not. *)
Abbreviation settings_map := (gmap string (list string)).
Abbreviation yaml_document := (gmap string settings_map).

(** [m[key]] on such a mapping. *)
Definition subscript {A : Type} (m : gmap string A) (key : string) : result A :=
  match m !! key with
  | Some v => ok v
  | None => raise (KeyError key)
  end.

(** The state of the process with what [settings()] depends on: the file,
    the cache that [lru_cache] keeps, and the number of times the file was
    opened. *)
Record Process (W : Type) : Type := {
  base : State W;
  settings_yml : option string;        (* contents of settings.yml, if any *)
  settings_cache : option settings_map;
  reads : nat
}.

Arguments base {W} _.
Arguments settings_yml {W} _.
Arguments settings_cache {W} _.
Arguments reads {W} _.

Definition MP (W A : Type) : Type := Process W -> result A * Process W.

Definition pret {W A : Type} (a : A) : MP W A := fun p => (inr a, p).

Definition pbind {W A B : Type} (m : MP W A) (f : A -> MP W B) : MP W B :=
  fun p =>
    match m p with
    | (inl e, p') => (inl e, p')
    | (inr a, p') => f a p'
    end.

(** The process with the state [s] of the script. *)
Definition with_base {W : Type} (p : Process W) (s : State W) : Process W :=
  {| base := s; settings_yml := settings_yml p;
     settings_cache := settings_cache p; reads := reads p |}.

(** A computation that does not touch the settings. *)
Definition on_base {W A : Type} (m : M W A) : MP W A :=
  fun p => let (r, s) := m (base p) in (r, with_base p s).

Definition plift {W A : Type} (r : result A) : MP W A := fun p => (r, p).

Definition ptry_except_HttpError {W A : Type}
    (body : MP W A) (handler : string -> MP W A) : MP W A :=
  fun p =>
    match body p with
    | (inl (HttpError detail), p') => handler detail p'
    | other => other
    end.

Declare Scope proc_scope.
Delimit Scope proc_scope with proc.
Notation "'let!' x := m 'in' k" := (pbind m (fun x => k))
  (at level 10, x name, m at level 100, k at level 200) : proc_scope.

Section Configured.

Context {W : Type}.
Variable ext : Externals W.

(** [yaml.safe_load] on the text of the file. *)
Variable safe_load : string -> result yaml_document.

Local Open Scope proc_scope.

(** Lines 84-88.  [lru_cache] returns the value of an earlier call that
    returned; a call that raised is not remembered.  Without a cached
    value the file is opened ([FileNotFoundError] when there is none),
    parsed, and the value under "settings" is cached and returned. *)
Definition settings : MP W settings_map :=
  fun p =>
    match settings_cache p with
    | Some cached => (inr cached, p)
    | None =>
        match settings_yml p with
        | None => (inl (OtherError "FileNotFoundError"), p)
        | Some text =>
            let opened := {| base := base p; settings_yml := settings_yml p;
                             settings_cache := None; reads := S (reads p) |} in
            match (let? config := safe_load text in
                   subscript config "settings")%res with
            | inl e => (inl e, opened)
            | inr value =>
                (inr value,
                 {| base := base p; settings_yml := settings_yml p;
                    settings_cache := Some value; reads := S (reads p) |})
            end
        end
    end.

(** [settings()[key]] *)
Definition setting (key : string) : MP W (list string) :=
  let! s := settings in
  plift (subscript s key).

(** The condition of lines 69-70 with its call of [settings()]: the
    iterable of the generator, [settings()["keywords"]], is evaluated
    when the right operand of [or] is, before any keyword is tried. *)
Definition qualifies_with_settings (e : event) : MP W bool :=
  let! ty := plift (getitem e "eventType") in
  if eq_str ty "outOfOffice" then pret true
  else
    let! kws := setting "keywords" in
    plift (any_keyword (str_lower ext) e kws).

(** Lines 67-71. *)
Fixpoint filter_with_settings (events : list event) : MP W (list event) :=
  match events with
  | [] => pret []
  | e :: events' =>
      let! keep := qualifies_with_settings e in
      let! rest := filter_with_settings events' in
      pret (if keep then e :: rest else rest)
  end.

(** Lines 45-71, given the value of [settings()["calendar_id"]]. *)
Fixpoint fetch_loop_with_settings (calendars : list string)
    (ooo_events : report) : MP W report :=
  match calendars with
  | [] => pret ooo_events
  | calendar :: calendars' =>
      let! events_result := on_base (list_events ext calendar) in
      let events := get_items events_result in
      match events with
      | [] => fetch_loop_with_settings calendars' ooo_events
      | _ :: _ =>
          let! kept := filter_with_settings events in
          fetch_loop_with_settings calendars' (<[calendar := kept]> ooo_events)
      end
  end.

(** Lines 42-73. *)
Definition try_body_with_settings (creds : Credentials) : MP W unit :=
  let! _ := on_base (extern (build ext creds)) in
  let! calendars := setting "calendar_id" in
  let! ooo_events := fetch_loop_with_settings calendars ∅ in
  on_base (print_report ooo_events).

(** Lines 18-81, with the settings read where the script reads them. *)
Definition main_with_settings : MP W unit :=
  let! creds := on_base (authorize ext) in
  ptry_except_HttpError (try_body_with_settings creds)
    (fun error => on_base (except_HttpError error)).

End Configured.

(** The process at its start: nothing cached, the file not opened yet. *)
Definition start {W : Type} (w : W) (token_json settings_text : option string)
  : Process W :=
  {| base := initial w token_json; settings_yml := settings_text;
     settings_cache := None; reads := 0 |}.

(** ** Variants of the concrete world *)

Module Variants.

(** Credentials whose refresh token is the empty string. *)
Definition revoked : Credentials :=
  {| token := Some "old"; refresh_token := Some ""; expired := true |}.

(** A world in which the token file holds [revoked]. *)
Definition ext_revoked : Externals unit :=
  {| str_lower := lower_ascii;
     from_authorized_user_file := fun _ w => (ok revoked, w);
     refresh := refresh Scenario.ext;
     from_client_secrets_file := from_client_secrets_file Scenario.ext;
     run_local_server := run_local_server Scenario.ext;
     flow_prompt := flow_prompt Scenario.ext;
     to_json := to_json Scenario.ext;
     build := build Scenario.ext;
     utcnow := utcnow Scenario.ext;
     execute := execute Scenario.ext |}.

Definition unavailable : string := "<HttpError 503 Service Unavailable>".

(** A world in which [build] raises an API error. *)
Definition ext_no_service : Externals unit :=
  {| str_lower := lower_ascii;
     from_authorized_user_file := from_authorized_user_file Scenario.ext;
     refresh := refresh Scenario.ext;
     from_client_secrets_file := from_client_secrets_file Scenario.ext;
     run_local_server := run_local_server Scenario.ext;
     flow_prompt := flow_prompt Scenario.ext;
     to_json := to_json Scenario.ext;
     build := fun _ w => (raise (HttpError unavailable), w);
     utcnow := utcnow Scenario.ext;
     execute := execute Scenario.ext |}.

(** A world in which every query fails below the API, on the network. *)
Definition ext_no_network : Externals unit :=
  {| str_lower := lower_ascii;
     from_authorized_user_file := from_authorized_user_file Scenario.ext;
     refresh := refresh Scenario.ext;
     from_client_secrets_file := from_client_secrets_file Scenario.ext;
     run_local_server := run_local_server Scenario.ext;
     flow_prompt := flow_prompt Scenario.ext;
     to_json := to_json Scenario.ext;
     build := build Scenario.ext;
     utcnow := utcnow Scenario.ext;
     execute := fun _ w => (raise (OtherError "TransportError"), w) |}.

(** One calendar listed twice while its events change: the first query
    returns events, the second none. *)
Definition serve_once (request : ListRequest) (w : nat)
  : result Response * nat :=
  match w with
  | O => (ok {| items := Some [Scenario.vacation; Scenario.standup] |}, S w)
  | S _ => (ok {| items := Some [] |}, S w)
  end.

Definition ext_changing : Externals nat :=
  {| str_lower := lower_ascii;
     from_authorized_user_file := fun _ w => (ok Scenario.fresh, w);
     refresh := fun c w => (ok c, w);
     from_client_secrets_file := fun w => (ok tt, w);
     run_local_server := fun w => (ok Scenario.granted, w);
     flow_prompt := fun _ => [Scenario.prompt];
     to_json := to_json Scenario.ext;
     build := fun _ w => (ok tt, w);
     utcnow := fun w => ("2024-01-01T00:00:00+00:00", w);
     execute := serve_once |}.

Definition cfg_twice : Settings :=
  {| calendar_id := ["team"; "team"]; keywords := ["vacation"] |}.

(** A parser that knows three settings files. *)
Definition parse_yaml (text : string) : result yaml_document :=
  if bool_decide (text = "full")
  then ok {[ "settings" :=
               {[ "calendar_id" := ["team"; "empty"; "quiet"; "bare"];
                  "keywords" := ["Vacation"] ]} ]}
  else if bool_decide (text = "no keywords")
  then ok {[ "settings" := {[ "calendar_id" := ["team"] ]} ]}
  else if bool_decide (text = "no calendars")
  then ok {[ "settings" := {[ "keywords" := ["Vacation"] ]} ]}
  else raise (OtherError "YAMLError").

End Variants.

(** ** Vocabulary of the properties *)

(** [needle] occurs in [hay]. *)
Definition occurs_in (needle hay : string) : Prop :=
  ∃ pre post, hay = pre +:+ needle +:+ post.

(** The two ways an event qualifies, in the words of the specification. *)
Definition is_out_of_office (e : event) : Prop :=
  e !! "eventType" = Some (VStr "outOfOffice").

Definition summary_has_keyword (lower : string -> string)
    (kws : list string) (e : event) : Prop :=
  ∃ summary keyword,
    e !! "summary" = Some (VStr summary) ∧ keyword ∈ kws ∧
    occurs_in (lower keyword) (lower summary).

(** Classifying and counting the recorded calls. *)
Definition is_refresh (c : call) : bool :=
  match c with CallRefresh => true | _ => false end.

Definition is_run_local_server (c : call) : bool :=
  match c with CallRunLocalServer => true | _ => false end.

Definition is_execute (c : call) : Prop :=
  match c with CallExecute _ _ => True | _ => False end.

Definition count (p : call -> bool) (cs : list call) : nat :=
  length (List.filter p cs).

(** The calendars queried, in the order of the queries. *)
Definition queried (cs : list call) : list string :=
  omap (λ c, match c with
             | CallExecute request _ => Some (calendarId request)
             | _ => None
             end) cs.

(** What one pass of the loop over [calendars] does, told by the queries
    it records: [loop_trace lower kws calendars before trace r] says that
    the loop started with the mapping [before], made the queries
    [trace], and raised or returned the mapping [r]. *)
Inductive loop_trace (lower : string -> string) (kws : list string)
  : list string -> report -> list call -> result report -> Prop :=
  | loop_done before :
      loop_trace lower kws [] before [] (inr before)
  | loop_query_raises calendar calendars before request e :
      calendarId request = calendar ->
      loop_trace lower kws (calendar :: calendars) before
        [CallExecute request (inl e)] (inl e)
  | loop_no_events calendar calendars before request response trace r :
      calendarId request = calendar ->
      get_items response = [] ->
      loop_trace lower kws calendars before trace r ->
      loop_trace lower kws (calendar :: calendars) before
        (CallExecute request (inr response) :: trace) r
  | loop_filter_raises calendar calendars before request response e :
      calendarId request = calendar ->
      filter_events lower kws (get_items response) = inl e ->
      loop_trace lower kws (calendar :: calendars) before
        [CallExecute request (inr response)] (inl e)
  | loop_kept calendar calendars before request response kept trace r :
      calendarId request = calendar ->
      get_items response ≠ [] ->
      filter_events lower kws (get_items response) = inr kept ->
      loop_trace lower kws calendars (<[calendar := kept]> before) trace r ->
      loop_trace lower kws (calendar :: calendars) before
        (CallExecute request (inr response) :: trace) r.

(** The parameters every query is sent with, lines 55-57. *)
Definition sends_fixed_parameters (c : call) : Prop :=
  match c with
  | CallExecute request _ =>
      maxResults request = 10%Z ∧ singleEvents request = true ∧
      orderBy request = "startTime"
  | _ => True
  end.

(** What authorization leaves on standard output when the process
    starts in the world [w] with the token file [token_json]: nothing, or
    the prompt of the interactive flow. *)
Definition authorization_output {W : Type} (ext : Externals W) (w : W)
    (token_json : option string) : list printed :=
  stdout (authorize ext (initial w token_json)).2.


(** How the process ends once the [try] block raised or computed [r],
    [before] being what standard output held when the block began. *)
Definition run_ends {W : Type} (before : list printed) (r : result report)
    (out : Outcome W) : Prop :=
  match r with
  | inr calendars =>
      exit_status out = 0%Z ∧ uncaught out = None ∧
      stdout (final out) = (before ++ [PrintedReport calendars])%list
  | inl (HttpError detail) =>
      exit_status out = 0%Z ∧ uncaught out = None ∧
      stdout (final out) =
        (before ++ [PrintedText ("An error occurred: " +:+ detail)])%list
  | inl e =>
      exit_status out = 1%Z ∧ uncaught out = Some e ∧
      stdout (final out) = before
  end.

(** Case analysis on what the authorization libraries answer. *)
Ltac unfold_authorize :=
  unfold authorize, load_token, login, do_refresh, interactive_flow,
    run_flow, bind, extern, log, write_token, ret.

Ltac ask_oracles ext :=
  repeat match goal with
    | |- context [from_authorized_user_file ext ?t ?w] =>
        destruct (from_authorized_user_file ext t w) as [[?|?] ?]; simpl
    | |- context [refresh ext ?c ?w] =>
        destruct (refresh ext c w) as [[?|?] ?]; simpl
    | |- context [from_client_secrets_file ext ?w] =>
        destruct (from_client_secrets_file ext w) as [[?|?] ?]; simpl
    | |- context [run_local_server ext ?w] =>
        destruct (run_local_server ext w) as [[?|?] ?]; simpl
    | |- context [if ?b then _ else _] => destruct b; simpl
    end.

(** * Properties *)

Local Open Scope list_scope.

(** ** Substrings *)

Lemma append_cons (a : ascii) (s t : string) :
  String a s +:+ t = String a (s +:+ t).
Proof. reflexivity. Qed.

Lemma append_empty (t : string) : "" +:+ t = t.
Proof. reflexivity. Qed.

Lemma prefix_true_iff (p s : string) :
  String.prefix p s = true ↔ ∃ post, s = p +:+ post.
Proof.
  revert s; induction p as [|a p IH]; intros s.
  - split; [intros _; by exists s | intros _; by destruct s].
  - destruct s as [|b s]; simpl.
    + split; [done | intros [post H]; discriminate].
    + destruct (Ascii.ascii_dec a b) as [->|Hne].
      * rewrite IH. split; intros [post H]; exists post.
        -- by rewrite append_cons, H.
        -- rewrite append_cons in H. congruence.
      * split; [done | intros [post H]; rewrite append_cons in H; congruence].
Qed.

Lemma contains_unfold (needle hay : string) :
  contains needle hay =
    if String.prefix needle hay then true
    else match hay with
         | EmptyString => false
         | String _ hay' => contains needle hay'
         end.
Proof. by destruct hay. Qed.

Lemma contains_occurs (needle hay : string) :
  contains needle hay = true ↔ occurs_in needle hay.
Proof.
  unfold occurs_in. induction hay as [|a hay IH]; rewrite contains_unfold.
  - destruct (String.prefix needle "") eqn:Hp.
    + split; [intros _ | done].
      apply prefix_true_iff in Hp as [post Hp]. by exists "", post.
    + split; [done | intros (pre & post & H)].
      destruct pre as [|b pre]; [|discriminate].
      rewrite append_empty in H.
      assert (String.prefix needle "" = true) as Ht
        by (apply prefix_true_iff; by exists post).
      congruence.
  - destruct (String.prefix needle (String a hay)) eqn:Hp.
    + split; [intros _ | done].
      apply prefix_true_iff in Hp as [post Hp]. by exists "", post.
    + rewrite IH. split.
      * intros (pre & post & ->). by exists (String a pre), post.
      * intros (pre & post & H). destruct pre as [|b pre].
        -- rewrite append_empty in H.
           assert (String.prefix needle (String a hay) = true) as Ht
             by (apply prefix_true_iff; by exists post).
           congruence.
        -- rewrite append_cons in H. injection H as -> ->. by exists pre, post.
Qed.

(** ** The filter predicate *)

Section FilterFacts.

Variable lower : string -> string.
Implicit Types (e : event) (kws : list string) (events : list event).

Lemma eq_str_true (v : value) (s : string) :
  eq_str v s = true ↔ v = VStr s.
Proof.
  destruct v as [t|]; simpl; [|done].
  rewrite bool_decide_eq_true. split; congruence.
Qed.

Lemma any_keyword_true e kws :
  any_keyword lower e kws = inr true ↔ summary_has_keyword lower kws e.
Proof.
  unfold summary_has_keyword. induction kws as [|k kws IH]; simpl.
  - split; [done | intros (? & ? & _ & Hin & _); by apply elem_of_nil in Hin].
  - unfold getitem. destruct (e !! "summary") as [[s|]|] eqn:Hs; simpl;
      try (split; [done | intros (? & ? & ? & _); done]).
    destruct (contains (lower k) (lower s)) eqn:Hc.
    + split; [intros _ | done]. exists s, k. split_and!; [done | left |].
      by apply contains_occurs.
    + rewrite IH. split.
      * intros (s' & k' & ? & ? & ?). exists s', k'. split_and!; [done | by right | done].
      * intros (s' & k' & Hs' & Hin & Hocc). exists s', k'.
        injection Hs' as <-. apply elem_of_cons in Hin as [->|Hin]; [|done].
        apply contains_occurs in Hocc. congruence.
Qed.

Lemma qualifies_true e kws (ty : value) :
  e !! "eventType" = Some ty →
  qualifies lower kws e = inr true ↔
    ty = VStr "outOfOffice" ∨ summary_has_keyword lower kws e.
Proof.
  intros Hty. unfold qualifies, getitem. rewrite Hty. simpl.
  destruct (eq_str ty "outOfOffice") eqn:Heq.
  - apply eq_str_true in Heq. split; [by left | done].
  - rewrite any_keyword_true. split; [by right | intros [Hooo|]; [|done]].
    apply eq_str_true in Hooo. congruence.
Qed.

Lemma any_keyword_raises e kws (x : exn) :
  any_keyword lower e kws = inl x →
  x = KeyError "summary" ∨ x = AttributeError "lower".
Proof.
  induction kws as [|k kws IH]; simpl; [done|].
  unfold getitem. destruct (e !! "summary") as [[s|]|]; simpl.
  - destruct (contains (lower k) (lower s)); [done | exact IH].
  - intros [= <-]. by right.
  - intros [= <-]. by left.
Qed.

(** The condition raises nothing but a failed lookup or a failed
    [.lower()]. *)
Lemma qualifies_raises e kws (x : exn) :
  qualifies lower kws e = inl x →
  x = KeyError "eventType" ∨ x = KeyError "summary" ∨
  x = AttributeError "lower".
Proof.
  unfold qualifies, getitem. destruct (e !! "eventType") as [ty|]; simpl.
  - destruct (eq_str ty "outOfOffice"); [done|].
    intros H%any_keyword_raises. by right.
  - intros [= <-]. by left.
Qed.

(** The comprehension raises exactly when the condition raises on one
    of the events. *)
Lemma filter_events_raises kws events (x : exn) :
  filter_events lower kws events = inl x →
  ∃ e, e ∈ events ∧ qualifies lower kws e = inl x.
Proof.
  induction events as [|e0 events IH]; simpl; [done|].
  destruct (qualifies lower kws e0) as [x0|b] eqn:Hq; simpl.
  - intros [= <-]. exists e0. split; [by left | done].
  - destruct (filter_events lower kws events) as [x1|rest]; simpl; [|done].
    intros [= <-]. destruct (IH eq_refl) as (e & Hin & He).
    exists e. split; [by right | done].
Qed.

Lemma qualifies_returns_has_type e kws (b : bool) :
  qualifies lower kws e = inr b → is_Some (e !! "eventType").
Proof.
  unfold qualifies, getitem. by destruct (e !! "eventType").
Qed.

(** The comprehension keeps exactly the events on which the condition
    is true, and can only return when the condition returned on every
    event. *)
Lemma filter_events_inv kws events (kept : list event) :
  filter_events lower kws events = inr kept →
  Forall (λ e, ∃ b : bool, qualifies lower kws e = inr b) events ∧
  ∀ e, e ∈ kept ↔ e ∈ events ∧ qualifies lower kws e = inr true.
Proof.
  revert kept. induction events as [|e0 events IH]; intros kept; simpl.
  - intros [= <-]. split; [constructor|].
    intros e. split; [intros H | intros [H _]]; by apply elem_of_nil in H.
  - destruct (qualifies lower kws e0) as [x|b] eqn:Hq; simpl; [done|].
    destruct (filter_events lower kws events) as [x|rest]; simpl; [done|].
    intros [= <-]. destruct (IH rest eq_refl) as [Hall Hiff].
    split; [constructor; eauto|].
    intros e. rewrite elem_of_cons. destruct b.
    + rewrite elem_of_cons, Hiff. split.
      * intros [->|[? ?]]; auto.
      * intros [[->|?] ?]; auto.
    + rewrite Hiff. split.
      * intros [? ?]; auto.
      * intros [[->|?] ?]; [congruence | auto].
Qed.

Lemma filter_events_raises_on kws events e (x : exn) :
  e ∈ events → qualifies lower kws e = inl x →
  ∃ x', filter_events lower kws events = inl x'.
Proof.
  intros Hin Hx.
  destruct (filter_events lower kws events) as [x'|kept] eqn:Hf; [by exists x'|].
  destruct (filter_events_inv kws events kept Hf) as [Hall _].
  rewrite List.Forall_forall in Hall.
  destruct (Hall e) as [b Hb]; [by apply list_elem_of_In | congruence].
Qed.

Lemma any_keyword_returns e kws (summary : string) :
  e !! "summary" = Some (VStr summary) →
  ∃ b : bool, any_keyword lower e kws = inr b.
Proof.
  intros Hs. induction kws as [|k kws IH]; simpl; [by exists false|].
  unfold getitem. rewrite Hs. simpl.
  destruct (contains (lower k) (lower summary)); [by exists true | done].
Qed.

(** When the condition returns: the event has an "eventType", and a
    "summary" that is a [str] unless the type is "outOfOffice" or there
    is no keyword to look for. *)
Lemma qualifies_returns_iff e kws :
  (∃ b : bool, qualifies lower kws e = inr b) ↔
  ∃ ty, e !! "eventType" = Some ty ∧
        (ty = VStr "outOfOffice" ∨ kws = [] ∨
         ∃ summary, e !! "summary" = Some (VStr summary)).
Proof.
  unfold qualifies, getitem.
  destruct (e !! "eventType") as [ty|]; simpl;
    [|split; [intros [? ?] | intros (? & ? & _)]; done].
  destruct (eq_str ty "outOfOffice") eqn:Heq.
  { apply eq_str_true in Heq. split; [|by exists true].
    intros _. exists ty. auto. }
  split.
  - intros [b Hb]. exists ty. split; [done|]. right.
    destruct kws as [|k kws']; [by left | right]. simpl in Hb.
    unfold getitem in Hb.
    destruct (e !! "summary") as [[summary|]|]; simpl in Hb; [|done..].
    by exists summary.
  - intros (ty' & [= <-] & [->|[->|[summary Hs]]]).
    + by vm_compute in Heq.
    + by exists false.
    + by eapply any_keyword_returns.
Qed.

Lemma qualifies_missing_type e kws :
  e !! "eventType" = None →
  qualifies lower kws e = inl (KeyError "eventType").
Proof. intros H. unfold qualifies, getitem. by rewrite H. Qed.

Lemma qualifies_missing_summary e kws (ty : value) :
  e !! "eventType" = Some ty → ty ≠ VStr "outOfOffice" → kws ≠ [] →
  e !! "summary" = None →
  qualifies lower kws e = inl (KeyError "summary").
Proof.
  intros Hty Hne Hkws Hs. unfold qualifies, getitem. rewrite Hty. simpl.
  destruct (eq_str ty "outOfOffice") eqn:Heq.
  { by apply eq_str_true in Heq. }
  destruct kws as [|k kws']; [done|]. simpl. unfold getitem. by rewrite Hs.
Qed.

End FilterFacts.

(** ** The loop over the calendars *)

Section LoopFacts.

Context {W : Type}.
Variable ext : Externals W.
Variable cfg : Settings.

(** The loop only queries: it leaves the token file and standard
    output alone, and the queries it records tell what it returns. *)
Lemma fetch_loop_trace (calendars : list string) (before : report)
    (s : State W) :
  ∃ trace,
    loop_trace (str_lower ext) (keywords cfg) calendars before trace
      (fetch_loop ext cfg calendars before s).1 ∧
    calls (fetch_loop ext cfg calendars before s).2 = calls s ++ trace ∧
    stdout (fetch_loop ext cfg calendars before s).2 = stdout s ∧
    token_file (fetch_loop ext cfg calendars before s).2 = token_file s.
Proof.
  revert before s. induction calendars as [|c calendars IH]; intros before s.
  - exists []. simpl. rewrite app_nil_r. split_and!; [constructor | done..].
  - simpl. unfold bind, list_events.
    destruct (utcnow ext (world s)) as [now w].
    set (request := {| calendarId := c; timeMin := now; maxResults := 10;
                       singleEvents := true; orderBy := "startTime" |}).
    destruct (execute ext request w) as [[e|response] w'].
    + exists [CallExecute request (inl e)]. simpl.
      split_and!; [by constructor | done..].
    + set (s1 := {| world := w'; token_file := token_file s;
                    stdout := stdout s;
                    calls := calls s ++ [CallExecute request (inr response)] |}).
      destruct (get_items response) as [|e0 events] eqn:Hitems.
      * destruct (IH before s1) as (trace & Ht & Hc & Ho & Hf).
        exists (CallExecute request (inr response) :: trace).
        split_and!; [by eapply loop_no_events | | done..].
        rewrite Hc. simpl. by rewrite <- app_assoc.
      * unfold lift.
        destruct (filter_events (str_lower ext) (keywords cfg) (e0 :: events))
          as [e|kept] eqn:Hfilter.
        -- exists [CallExecute request (inr response)]. simpl.
           split_and!; [|done..].
           apply loop_filter_raises; [done|]. by rewrite Hitems.
        -- destruct (IH (<[c := kept]> before) s1) as (trace & Ht & Hc & Ho & Hf).
           exists (CallExecute request (inr response) :: trace).
           split_and!; [| |done..].
           ++ eapply loop_kept; [done| | |done].
              ** by rewrite Hitems.
              ** by rewrite Hitems.
           ++ rewrite Hc. simpl. by rewrite <- app_assoc.
Qed.

End LoopFacts.

(** ** What the recorded queries tell *)

Section TraceFacts.

Variable lower : string -> string.
Variable kws : list string.

Lemma loop_trace_executes calendars before trace r :
  loop_trace lower kws calendars before trace r → Forall is_execute trace.
Proof.
  induction 1; repeat constructor; done.
Qed.

(** The queries follow the configured sequence, one calendar each. *)
Lemma loop_trace_queried calendars before trace r :
  loop_trace lower kws calendars before trace r →
  queried trace = take (length trace) calendars.
Proof.
  induction 1; simpl; unfold queried in *; simpl; rewrite ?take_0;
    congruence.
Qed.

(** A query that raises ends the loop with its exception. *)
Lemma loop_trace_raise calendars before trace r i request e :
  loop_trace lower kws calendars before trace r →
  trace !! i = Some (CallExecute request (inl e)) →
  r = inl e ∧ length trace = S i ∧ calendars !! i = Some (calendarId request).
Proof.
  intros H. revert i. induction H; intros i Hi.
  - done.
  - destruct i as [|i]; simpl in Hi; [|done].
    injection Hi as -> ->. simpl. by subst.
  - destruct i as [|i]; simpl in Hi; [done|].
    destruct (IHloop_trace i Hi) as (-> & Hlen & Hcal). simpl. auto.
  - destruct i as [|i]; simpl in Hi; done.
  - destruct i as [|i]; simpl in Hi; [done|].
    destruct (IHloop_trace i Hi) as (-> & Hlen & Hcal). simpl. auto.
Qed.

(** So does a list of events on which the comprehension raises. *)
Lemma loop_trace_filter_raises calendars before trace r request response e :
  loop_trace lower kws calendars before trace r →
  CallExecute request (inr response) ∈ trace →
  filter_events lower kws (get_items response) = inl e →
  r = inl e.
Proof.
  induction 1; intros Hin Hraise.
  - by apply elem_of_nil in Hin.
  - apply list_elem_of_singleton in Hin. done.
  - apply elem_of_cons in Hin as [Heq|Hin]; [|auto].
    injection Heq as -> ->. rewrite H0 in Hraise. done.
  - apply list_elem_of_singleton in Hin. injection Hin as -> ->. congruence.
  - apply elem_of_cons in Hin as [Heq|Hin]; [|auto].
    injection Heq as -> ->. congruence.
Qed.

(** A key of the mapping the loop returns was there before or comes
    from a query that returned events. *)
Lemma loop_trace_key calendars before trace after c (l : list event) :
  loop_trace lower kws calendars before trace (inr after) →
  after !! c = Some l →
  before !! c = Some l ∨
  ∃ request response,
    CallExecute request (inr response) ∈ trace ∧
    calendarId request = c ∧ get_items response ≠ [] ∧
    filter_events lower kws (get_items response) = inr l.
Proof.
  intros H. remember (inr after) as r eqn:Hr. revert Hr.
  induction H; intros Hr Hl; try done.
  - injection Hr as ->. by left.
  - destruct (IHloop_trace Hr Hl) as [?|(rq & rs & Hin & ?)]; [by left|].
    right. exists rq, rs. split; [by right | done].
  - destruct (IHloop_trace Hr Hl) as [Hb|(rq & rs & Hin & ?)].
    + destruct (decide (calendar = c)) as [->|Hne].
      * rewrite lookup_insert_eq in Hb. injection Hb as ->.
        right. exists request, response. split_and!; [by left | done..].
      * rewrite lookup_insert_ne in Hb by done. by left.
    + right. exists rq, rs. split; [by right | done].
Qed.

Lemma filter_events_none (events : list event) :
  (∀ e, e ∈ events → qualifies lower kws e = inr false) →
  filter_events lower kws events = inr [].
Proof.
  induction events as [|e events IH]; intros Hall; simpl; [done|].
  rewrite (Hall e) by left. simpl.
  rewrite IH; [done|]. intros e' Hin. apply Hall. by right.
Qed.

(** A calendar whose queries returned events, none of them qualifying,
    is mapped to the empty list. *)
Lemma loop_trace_empty_entry calendars before trace after c :
  loop_trace lower kws calendars before trace (inr after) →
  (∀ request response,
     CallExecute request (inr response) ∈ trace →
     calendarId request = c →
     ∀ e, e ∈ get_items response → qualifies lower kws e = inr false) →
  before !! c = Some [] ∨
    (∃ request response,
       CallExecute request (inr response) ∈ trace ∧
       calendarId request = c ∧ get_items response ≠ []) →
  after !! c = Some [].
Proof.
  intros H. remember (inr after) as r eqn:Hr. revert Hr.
  induction H; intros Hr Hnone Hsome; try done.
  - injection Hr as ->. destruct Hsome as [?|(? & ? & Hin & _)]; [done|].
    by apply elem_of_nil in Hin.
  - apply IHloop_trace; [done | |].
    + intros rq rs Hin. apply Hnone. by right.
    + destruct Hsome as [?|(rq & rs & Hin & Hc & Hne)]; [by left|].
      right. exists rq, rs. split; [|done].
      apply elem_of_cons in Hin as [Heq|?]; [|done].
      injection Heq as -> ->. done.
  - apply IHloop_trace; [done | |].
    + intros rq rs Hin. apply Hnone. by right.
    + destruct (decide (calendar = c)) as [->|Hne].
      * left. rewrite lookup_insert_eq. f_equal.
        assert (filter_events lower kws (get_items response) = inr []) as Hf.
        { apply filter_events_none. eapply Hnone; [by left | done]. }
        congruence.
      * destruct Hsome as [Hb|(rq & rs & Hin & Hc & Hne')].
        -- left. by rewrite lookup_insert_ne.
        -- right. exists rq, rs. split; [|done].
           apply elem_of_cons in Hin as [Heq|?]; [|done].
           injection Heq as -> ->. congruence.
Qed.

End TraceFacts.

(** ** The whole run *)

Lemma queried_app (cs1 cs2 : list call) :
  queried (cs1 ++ cs2) = queried cs1 ++ queried cs2.
Proof. apply omap_app. Qed.

Lemma queried_no_execute (cs : list call) :
  Forall (λ c, ¬ is_execute c) cs → queried cs = [].
Proof.
  induction 1 as [|c cs Hc _ IH]; [done|].
  destruct c; simpl in *; [done | done | by destruct Hc].
Qed.

Lemma count_app (p : call -> bool) (cs1 cs2 : list call) :
  count p (cs1 ++ cs2) = count p cs1 + count p cs2.
Proof. unfold count. by rewrite List.filter_app, length_app. Qed.

Lemma count_executes (p : call -> bool) (cs : list call) :
  (∀ request outcome, p (CallExecute request outcome) = false) →
  Forall is_execute cs → count p cs = 0.
Proof.
  intros Hp. induction 1 as [|c cs Hc _ IH]; [done|].
  destruct c; try done. unfold count in *. simpl. by rewrite Hp.
Qed.

Section RunFacts.

Context {W : Type}.
Variable ext : Externals W.
Variable cfg : Settings.

(** Authorization prints at most the prompt of the flow and queries no
    calendar. *)
Lemma authorize_frame (s : State W) :
  (∃ lines, stdout (authorize ext s).2 = stdout s ++ map PrintedText lines) ∧
  ∃ auth, calls (authorize ext s).2 = calls s ++ auth ∧
          Forall (λ c, ¬ is_execute c) auth.
Proof.
  assert (∀ out : list printed,
            ∃ lines, out = out ++ map PrintedText lines) as Hquiet
    by (intros out; exists []; by rewrite app_nil_r).
  assert (∀ (out : list printed) ls,
            ∃ lines, out ++ map PrintedText ls = out ++ map PrintedText lines)
    as Hprompt by (intros out ls; by exists ls).
  assert (∀ cs : list call, ∃ auth, cs = cs ++ auth ∧
            Forall (λ c, ¬ is_execute c) auth) as Hnil
    by (intros cs; exists []; by rewrite app_nil_r).
  assert (∀ (cs : list call) c, ¬ is_execute c → ∃ auth, cs ++ [c] = cs ++ auth ∧
            Forall (λ c, ¬ is_execute c) auth) as Hone
    by (intros cs c Hc; exists [c]; by repeat constructor).
  unfold_authorize. destruct (token_file s) as [text|]; simpl;
    ask_oracles ext; split; auto.
Qed.

(** Either authorization raises, or the [try] block runs: it leaves
    the token file alone, records queries only, and the process ends
    as [run_ends] tells. *)
Lemma run_spec (s : State W) :
  (∃ e, (authorize ext s).1 = inl e ∧
        final (run ext cfg s) = (authorize ext s).2 ∧
        uncaught (run ext cfg s) = Some e ∧
        exit_status (run ext cfg s) = 1%Z) ∨
  (∃ creds trace r,
      (authorize ext s).1 = inr creds ∧
      token_file (final (run ext cfg s)) = token_file (authorize ext s).2 ∧
      calls (final (run ext cfg s)) = calls (authorize ext s).2 ++ trace ∧
      (loop_trace (str_lower ext) (keywords cfg) (calendar_id cfg) ∅ trace r ∨
       (trace = [] ∧ ∃ e, r = inl e)) ∧
      run_ends (stdout (authorize ext s).2) r (run ext cfg s)).
Proof.
  unfold run, main, bind.
  destruct (authorize ext s) as [[e|creds] s1]; simpl in *.
  { left. by exists e. }
  right. exists creds.
  unfold try_except_HttpError, try_body, bind, extern.
  destruct (build ext creds (world s1)) as [[e|[]] w].
  - exists [], (inl e). rewrite app_nil_r.
    destruct e; simpl; split_and!; eauto.
  - set (s2 := {| world := w; token_file := token_file s1;
                  stdout := stdout s1; calls := calls s1 |}).
    destruct (fetch_loop_trace ext cfg (calendar_id cfg) ∅ s2)
      as (trace & Ht & Hc & Ho & Hf).
    destruct (fetch_loop ext cfg (calendar_id cfg) ∅ s2) as [[e|calendars] s3];
      simpl in *; exists trace; [exists (inl e) | exists (inr calendars)].
    + destruct e; simpl; rewrite ?Ho; split_and!; eauto.
    + simpl. rewrite Ho. split_and!; eauto.
Qed.

Lemma prompt_no_report (before : list string) (calendars : report) :
  PrintedReport calendars ∉ map PrintedText before.
Proof. intros (line & Hline & _)%list_elem_of_fmap. discriminate. Qed.

Lemma prompt_then_text_no_report (before : list string) (line : string)
    (calendars : report) :
  PrintedReport calendars ∉ map PrintedText before ++ [PrintedText line].
Proof.
  intros [Hin|Hin]%elem_of_app; [by apply prompt_no_report in Hin|].
  by apply list_elem_of_singleton in Hin.
Qed.

(** Authorization leaves text on standard output, no report. *)
Lemma authorization_output_prompt (w : W) (token_json : option string) :
  ∃ lines, authorization_output ext w token_json = map PrintedText lines.
Proof.
  destruct (authorize_frame (initial w token_json)) as [[lines Hout] _].
  by exists lines.
Qed.

(** The same from the start of the process: the calls are those of
    authorization followed by the queries of the loop. *)
Lemma run_loop_spec (w : W) (token_json : option string) :
  ∃ auth trace,
    calls (final (run ext cfg (initial w token_json))) = auth ++ trace ∧
    Forall (λ c, ¬ is_execute c) auth ∧
    ((trace = [] ∧
      ∀ calendars, PrintedReport calendars ∉
                     stdout (final (run ext cfg (initial w token_json)))) ∨
     (∃ r, loop_trace (str_lower ext) (keywords cfg) (calendar_id cfg) ∅
             trace r ∧
           run_ends (authorization_output ext w token_json) r
             (run ext cfg (initial w token_json)))).
Proof.
  unfold authorization_output. set (s := initial w token_json).
  destruct (authorize_frame s) as ([lines Hout] & auth & Hauth & Hne).
  simpl in Hout, Hauth.
  destruct (run_spec s)
    as [(e & _ & Hfin & _)|(creds & trace & r & _ & _ & Hc & Hloop & Hend)].
  - exists auth, []. rewrite app_nil_r, Hfin. split_and!; [done..|].
    left. split; [done|]. intros calendars. rewrite Hout.
    apply prompt_no_report.
  - exists auth, trace. rewrite Hc, Hauth. split_and!; [done..|].
    destruct Hloop as [Hloop|[-> [e ->]]]; [right; by exists r|].
    left. split; [done|]. intros calendars.
    destruct e; simpl in Hend; destruct Hend as (_ & _ & ->); rewrite Hout;
      first [apply prompt_no_report | apply prompt_then_text_no_report].
Qed.

(** A recorded query belongs to the loop. *)
Lemma execute_in_trace (auth trace : list call) request outcome :
  Forall (λ c, ¬ is_execute c) auth →
  CallExecute request outcome ∈ auth ++ trace →
  CallExecute request outcome ∈ trace.
Proof.
  intros Hne Hin. apply elem_of_app in Hin as [Hin|Hin]; [|done].
  rewrite List.Forall_forall in Hne.
  apply list_elem_of_In, Hne in Hin. by destruct Hin.
Qed.

Lemma execute_at_in_trace (auth trace : list call) i request outcome :
  Forall (λ c, ¬ is_execute c) auth →
  (auth ++ trace) !! i = Some (CallExecute request outcome) →
  ∃ j, i = length auth + j ∧ trace !! j = Some (CallExecute request outcome).
Proof.
  intros Hne Hi. apply lookup_app_Some in Hi as [Hi|[Hle Hi]].
  - rewrite List.Forall_forall in Hne.
    apply list_elem_of_lookup_2, list_elem_of_In, Hne in Hi. by destruct Hi.
  - exists (i - length auth). split; [lia | done].
Qed.

(** The process printed a report: the loop returned it. *)
Lemma printed_report_trace (w : W) (token_json : option string)
    (calendars : report) :
  PrintedReport calendars ∈
    stdout (final (run ext cfg (initial w token_json))) →
  ∃ auth trace,
    calls (final (run ext cfg (initial w token_json))) = auth ++ trace ∧
    Forall (λ c, ¬ is_execute c) auth ∧
    loop_trace (str_lower ext) (keywords cfg) (calendar_id cfg) ∅ trace
      (inr calendars).
Proof.
  intros Hin.
  destruct (run_loop_spec w token_json)
    as (auth & trace & Hc & Hne & [[_ Hno]|(r & Hloop & Hend)]).
  { by destruct (Hno calendars). }
  exists auth, trace. split_and!; [done..|].
  destruct (authorization_output_prompt w token_json) as [lines Hlines].
  rewrite Hlines in Hend.
  destruct r as [e|calendars']; simpl in Hend.
  - destruct e; destruct Hend as (_ & _ & Hstd); rewrite Hstd in Hin;
      first [by apply prompt_no_report in Hin
            | by apply prompt_then_text_no_report in Hin].
  - destruct Hend as (_ & _ & Hstd). rewrite Hstd in Hin.
    apply elem_of_app in Hin as [Hin|Hin];
      [by apply prompt_no_report in Hin|].
    apply list_elem_of_singleton in Hin. by injection Hin as ->.
Qed.

(** After authorization the token file is not written again, and only
    queries are recorded. *)
Lemma run_keeps_authorization (s : State W) :
  stdout s = [] →
  token_file (final (run ext cfg s)) = token_file (authorize ext s).2 ∧
  ∃ trace, calls (final (run ext cfg s)) = calls (authorize ext s).2 ++ trace ∧
           Forall is_execute trace.
Proof.
  intros _.
  destruct (run_spec s)
    as [(e & _ & Hfin & _)|(creds & trace & r & _ & Htok & Hc & Hloop & _)].
  - rewrite Hfin. split; [done|]. exists []. by rewrite app_nil_r.
  - split; [done|]. exists trace. split; [done|].
    destruct Hloop as [Hloop|[-> _]]; [|constructor].
    by eapply loop_trace_executes.
Qed.

Lemma run_auth_counts (s : State W) (p : call -> bool) :
  stdout s = [] →
  (∀ request outcome, p (CallExecute request outcome) = false) →
  count p (calls (final (run ext cfg s))) =
    count p (calls (authorize ext s).2).
Proof.
  intros Hout Hp.
  destruct (run_keeps_authorization s Hout) as (_ & trace & -> & Hexe).
  rewrite count_app, (count_executes p trace Hp Hexe). lia.
Qed.

(** An exception of the comprehension leaves [main]: the handler is for
    API errors only. *)
Lemma run_filter_raises (w : W) (token_json : option string)
    (request : ListRequest) (response : Response) (x : exn) :
  CallExecute request (inr response) ∈
    calls (final (run ext cfg (initial w token_json))) →
  filter_events (str_lower ext) (keywords cfg) (get_items response) = inl x →
  uncaught (run ext cfg (initial w token_json)) = Some x ∧
  exit_status (run ext cfg (initial w token_json)) = 1%Z ∧
  stdout (final (run ext cfg (initial w token_json))) =
    authorization_output ext w token_json ∧
  ∀ detail, x ≠ HttpError detail.
Proof.
  intros Hin Hraise.
  destruct (run_loop_spec w token_json)
    as (auth & trace & Hc & Hne & Hcases).
  rewrite Hc in Hin. apply execute_in_trace in Hin; [|done].
  destruct Hcases as [[-> _]|(r & Hloop & Hend)].
  { by apply elem_of_nil in Hin. }
  rewrite (loop_trace_filter_raises _ _ _ _ _ _ _ _ _ Hloop Hin Hraise) in Hend.
  destruct (filter_events_raises _ _ _ _ Hraise) as (e & _ & He).
  apply qualifies_raises in He as [-> | [-> | ->]]; simpl in Hend;
    destruct Hend as (? & ? & ?); split_and!; done.
Qed.

End RunFacts.

(** * The claims *)

(** ** Filtering *)

(** The scenario of the specification: with the keyword "vacation", the
    event "Team Vacation" is kept, "Standup" is not, and an event of type
    "outOfOffice" is kept whatever the keywords are. *)
Example scenario_keyword :
  qualifies lower_ascii ["vacation"] Scenario.vacation = inr true.
Proof. reflexivity. Qed.

Example scenario_no_keyword :
  qualifies lower_ascii ["vacation"] Scenario.standup = inr false.
Proof. reflexivity. Qed.

Example scenario_out_of_office (kws : list string) :
  qualifies lower_ascii kws Scenario.away = inr true.
Proof. reflexivity. Qed.

(** Without a token file the prompt of the interactive flow precedes
    what the script prints. *)
Example scenario_prompt_then_error :
  stdout (final (run Scenario.ext Scenario.cfg_broken (initial tt None))) =
    [PrintedText Scenario.prompt;
     PrintedText "An error occurred: <HttpError 404 Not Found>"].
Proof. reflexivity. Qed.

Example scenario_typeless :
  qualifies lower_ascii ["vacation"] Scenario.typeless
  = inl (KeyError "eventType").
Proof. reflexivity. Qed.




(** C9: filtering is idempotent: running the comprehension again on the
    events it kept returns the same list. *)
Theorem filter_events_idempotent (lower : string -> string)
    (kws : list string) (events kept : list event) :
  filter_events lower kws events = inr kept →
  filter_events lower kws kept = inr kept.
Proof.
  revert kept. induction events as [|e events IH]; intros kept; simpl.
  - by intros [= <-].
  - destruct (qualifies lower kws e) as [x|keep] eqn:Hq; simpl; [done|].
    destruct (filter_events lower kws events) as [x|rest]; simpl; [done|].
    intros [= <-]. specialize (IH rest eq_refl).
    destruct keep; [|done]. simpl. by rewrite Hq, IH.
Qed.

Lemma filter_events_idempotent_witness :
  filter_events lower_ascii ["Vacation"] [Scenario.vacation; Scenario.away]
  = inr [Scenario.vacation; Scenario.away].
Proof.
  apply (filter_events_idempotent lower_ascii ["Vacation"]
           [Scenario.vacation; Scenario.standup; Scenario.away]).
  reflexivity.
Defined.

(** ** API errors *)

(** C2, as the code has it: when a calendar query raises an API error,
    the handler of lines 80-81 prints the message with the error's text
    (the last thing on standard output, after what authorization may have
    left there), [main] returns, and the process ends with exit status 0. *)
Theorem api_error_printed_exit_zero {W : Type} (ext : Externals W)
    (cfg : Settings) (w : W) (token_json : option string)
    (request : ListRequest) (detail : string) :
  CallExecute request (inl (HttpError detail)) ∈
    calls (final (run ext cfg (initial w token_json))) →
  stdout (final (run ext cfg (initial w token_json))) =
    authorization_output ext w token_json ++
    [PrintedText ("An error occurred: " +:+ detail)] ∧
  uncaught (run ext cfg (initial w token_json)) = None ∧
  exit_status (run ext cfg (initial w token_json)) = 0%Z.
Proof.
  intros Hin.
  destruct (run_loop_spec ext cfg w token_json)
    as (auth & trace & Hc & Hne & Hcases).
  rewrite Hc in Hin. apply execute_in_trace in Hin; [|done].
  destruct Hcases as [[-> _]|(r & Hloop & Hend)].
  { by apply elem_of_nil in Hin. }
  apply list_elem_of_lookup in Hin as [j Hj].
  destruct (loop_trace_raise _ _ _ _ _ _ _ _ _ Hloop Hj) as (-> & _ & _).
  simpl in Hend. tauto.
Qed.

(** C3: when the query for a calendar raises an API error, it is the last
    call of the run, the calendars queried are the configured sequence up
    to and including that calendar, no report is printed, and the message
    printed, the last thing on standard output after what authorization
    may have left there, carries the text of the error. *)
Theorem api_error_aborts_run {W : Type} (ext : Externals W) (cfg : Settings)
    (w : W) (token_json : option string) (i : nat)
    (request : ListRequest) (detail : string) :
  calls (final (run ext cfg (initial w token_json))) !! i =
    Some (CallExecute request (inl (HttpError detail))) →
  length (calls (final (run ext cfg (initial w token_json)))) = S i ∧
  (∃ n, calendar_id cfg !! n = Some (calendarId request) ∧
        queried (calls (final (run ext cfg (initial w token_json)))) =
          take (S n) (calendar_id cfg)) ∧
  (∀ calendars, PrintedReport calendars ∉
                  stdout (final (run ext cfg (initial w token_json)))) ∧
  stdout (final (run ext cfg (initial w token_json))) =
    authorization_output ext w token_json ++
    [PrintedText ("An error occurred: " +:+ detail)].
Proof.
  intros Hi.
  destruct (run_loop_spec ext cfg w token_json)
    as (auth & trace & Hc & Hne & Hcases).
  rewrite Hc in Hi |- *.
  destruct (execute_at_in_trace auth trace i _ _ Hne Hi) as (j & -> & Hj).
  destruct Hcases as [[-> _]|(r & Hloop & Hend)]; [done|].
  destruct (loop_trace_raise _ _ _ _ _ _ _ _ _ Hloop Hj) as (-> & Hlen & Hcal).
  simpl in Hend. destruct Hend as (_ & _ & Hstd).
  split_and!.
  - rewrite length_app, Hlen. lia.
  - exists j. split; [done|].
    rewrite queried_app, (queried_no_execute auth Hne). simpl.
    rewrite (loop_trace_queried _ _ _ _ _ _ Hloop). by rewrite Hlen.
  - intros calendars. rewrite Hstd.
    destruct (authorization_output_prompt ext w token_json) as [lines ->].
    apply prompt_then_text_no_report.
  - done.
Qed.

Lemma api_error_printed_exit_zero_witness :
  stdout (final (run Scenario.ext Scenario.cfg_broken (initial tt (Some "fresh")))) =
    [PrintedText "An error occurred: <HttpError 404 Not Found>"] ∧
  uncaught (run Scenario.ext Scenario.cfg_broken (initial tt (Some "fresh"))) = None ∧
  exit_status (run Scenario.ext Scenario.cfg_broken (initial tt (Some "fresh"))) = 0%Z.
Proof.
  apply (api_error_printed_exit_zero Scenario.ext Scenario.cfg_broken tt
           (Some "fresh") (Scenario.request "broken")).
  apply (list_elem_of_lookup_2 _ 1). reflexivity.
Defined.

(** C2 as stated fails: in this run the query for the second calendar
    raises an API error and the exit status is not different from 0. *)
Lemma api_error_exit_status_counterexample :
  CallExecute (Scenario.request "broken") (inl Scenario.not_found) ∈
    calls (final (run Scenario.ext Scenario.cfg_broken (initial tt (Some "fresh")))) ∧
  ¬ exit_status (run Scenario.ext Scenario.cfg_broken (initial tt (Some "fresh")))
    ≠ 0%Z.
Proof.
  split.
  - apply (list_elem_of_lookup_2 _ 1). reflexivity.
  - intros H. by apply H.
Qed.

Lemma api_error_aborts_run_witness :
  length (calls (final (run Scenario.ext Scenario.cfg_broken
                          (initial tt (Some "fresh"))))) = 2 ∧
  (∃ n, calendar_id Scenario.cfg_broken !! n = Some "broken" ∧
        queried (calls (final (run Scenario.ext Scenario.cfg_broken
                                 (initial tt (Some "fresh"))))) =
          take (S n) (calendar_id Scenario.cfg_broken)) ∧
  (∀ calendars, PrintedReport calendars ∉
                  stdout (final (run Scenario.ext Scenario.cfg_broken
                                   (initial tt (Some "fresh"))))) ∧
  stdout (final (run Scenario.ext Scenario.cfg_broken (initial tt (Some "fresh")))) =
    [PrintedText "An error occurred: <HttpError 404 Not Found>"].
Proof.
  apply (api_error_aborts_run Scenario.ext Scenario.cfg_broken tt
           (Some "fresh") 1 (Scenario.request "broken")).
  reflexivity.
Defined.

(** ** The keys of the report *)

(** C4: a calendar identifier is a key of the printed report only if some
    query for it returned at least one event; a calendar whose queries all
    returned no event is not a key. *)
Theorem report_key_only_if_events {W : Type} (ext : Externals W)
    (cfg : Settings) (w : W) (token_json : option string)
    (calendars : report) (c : string) :
  PrintedReport calendars ∈
    stdout (final (run ext cfg (initial w token_json))) →
  (∀ l, calendars !! c = Some l →
        ∃ request response,
          CallExecute request (inr response) ∈
            calls (final (run ext cfg (initial w token_json))) ∧
          calendarId request = c ∧ get_items response ≠ []) ∧
  ((∀ request response,
      CallExecute request (inr response) ∈
        calls (final (run ext cfg (initial w token_json))) →
      calendarId request = c → get_items response = []) →
   calendars !! c = None).
Proof.
  intros Hin.
  destruct (printed_report_trace ext cfg w token_json calendars Hin)
    as (auth & trace & Hc & Hne & Hloop).
  assert (∀ l, calendars !! c = Some l →
            ∃ request response,
              CallExecute request (inr response) ∈
                calls (final (run ext cfg (initial w token_json))) ∧
              calendarId request = c ∧ get_items response ≠ []) as Honly.
  { intros l Hl.
    destruct (loop_trace_key _ _ _ _ _ _ _ _ Hloop Hl)
      as [Hempty|(rq & rs & Hrq & Hcal & Hitems & _)].
    - by rewrite lookup_empty in Hempty.
    - exists rq, rs. rewrite Hc. split_and!; [|done..].
      apply elem_of_app. by right. }
  split; [done|]. intros Hzero.
  destruct (calendars !! c) as [l|] eqn:Hl; [|done].
  destruct (Honly l eq_refl) as (rq & rs & Hrq & Hcal & Hitems).
  by destruct Hitems, (Hzero rq rs).
Qed.

(** C5: a calendar for which a query returned events, while no event
    returned for it satisfies the condition, is a key of the printed
    report, mapped to the empty list. *)
Theorem report_empty_list_entry {W : Type} (ext : Externals W)
    (cfg : Settings) (w : W) (token_json : option string)
    (calendars : report) (request : ListRequest) (response : Response) :
  PrintedReport calendars ∈
    stdout (final (run ext cfg (initial w token_json))) →
  CallExecute request (inr response) ∈
    calls (final (run ext cfg (initial w token_json))) →
  get_items response ≠ [] →
  (∀ request' response',
     CallExecute request' (inr response') ∈
       calls (final (run ext cfg (initial w token_json))) →
     calendarId request' = calendarId request →
     ∀ e, e ∈ get_items response' →
          qualifies (str_lower ext) (keywords cfg) e = inr false) →
  calendars !! calendarId request = Some [].
Proof.
  intros Hin Hrq Hitems Hnone.
  destruct (printed_report_trace ext cfg w token_json calendars Hin)
    as (auth & trace & Hc & Hne & Hloop).
  rewrite Hc in Hrq, Hnone.
  eapply loop_trace_empty_entry; [exact Hloop | |].
  - intros rq rs Hin'. apply Hnone, elem_of_app. by right.
  - right. exists request, response. split_and!; [|done..].
    by eapply execute_in_trace.
Qed.

Lemma report_key_only_if_events_witness :
  (∀ l, Scenario.expected_report !! "empty" = Some l →
        ∃ request response,
          CallExecute request (inr response) ∈
            calls (final (run Scenario.ext Scenario.cfg
                            (initial tt (Some "fresh")))) ∧
          calendarId request = "empty" ∧ get_items response ≠ []) ∧
  ((∀ request response,
      CallExecute request (inr response) ∈
        calls (final (run Scenario.ext Scenario.cfg
                        (initial tt (Some "fresh")))) →
      calendarId request = "empty" → get_items response = []) →
   Scenario.expected_report !! "empty" = None).
Proof.
  apply (report_key_only_if_events Scenario.ext Scenario.cfg tt (Some "fresh")).
  apply list_elem_of_singleton. reflexivity.
Defined.

Lemma report_empty_list_entry_witness :
  Scenario.expected_report !! "quiet" = Some [].
Proof.
  apply (report_empty_list_entry Scenario.ext Scenario.cfg tt (Some "fresh")
           Scenario.expected_report (Scenario.request "quiet")
           {| items := Some [Scenario.standup] |}).
  - apply list_elem_of_singleton. reflexivity.
  - apply (list_elem_of_lookup_2 _ 2). reflexivity.
  - discriminate.
  - intros rq rs Hin Hcal e He.
    assert (calls (final (run Scenario.ext Scenario.cfg
                            (initial tt (Some "fresh")))) =
            [CallExecute (Scenario.request "team")
               (inr {| items := Some [Scenario.vacation; Scenario.standup;
                                      Scenario.away] |});
             CallExecute (Scenario.request "empty") (inr {| items := Some [] |});
             CallExecute (Scenario.request "quiet")
               (inr {| items := Some [Scenario.standup] |});
             CallExecute (Scenario.request "bare") (inr {| items := None |})])
      as Hcalls by reflexivity.
    rewrite Hcalls in Hin.
    repeat (apply elem_of_cons in Hin as [Hin|Hin]);
      try (by apply elem_of_nil in Hin);
      injection Hin as -> ->; try discriminate Hcal.
    apply list_elem_of_singleton in He as ->. reflexivity.
Defined.

(** ** Credentials *)

(** C6: when the token file exists and the credentials loaded from it are
    valid, no refresh call and no interactive flow take place, and the
    token file keeps its contents. *)
Theorem valid_token_left_alone {W : Type} (ext : Externals W) (cfg : Settings)
    (w w1 : W) (text : string) (creds : Credentials) :
  from_authorized_user_file ext text w = (inr creds, w1) →
  valid creds = true →
  count is_refresh
    (calls (final (run ext cfg (initial w (Some text))))) = 0 ∧
  count is_run_local_server
    (calls (final (run ext cfg (initial w (Some text))))) = 0 ∧
  token_file (final (run ext cfg (initial w (Some text)))) = Some text.
Proof.
  intros Hload Hvalid.
  destruct (run_keeps_authorization ext cfg (initial w (Some text)) eq_refl)
    as [-> _].
  rewrite !run_auth_counts by done.
  unfold_authorize. simpl. rewrite Hload. simpl. rewrite Hvalid. done.
Qed.

Lemma valid_token_left_alone_witness :
  count is_refresh
    (calls (final (run Scenario.ext Scenario.cfg (initial tt (Some "fresh"))))) = 0 ∧
  count is_run_local_server
    (calls (final (run Scenario.ext Scenario.cfg (initial tt (Some "fresh"))))) = 0 ∧
  token_file (final (run Scenario.ext Scenario.cfg (initial tt (Some "fresh"))))
    = Some "fresh".
Proof.
  apply (valid_token_left_alone Scenario.ext Scenario.cfg tt tt "fresh"
           Scenario.fresh); reflexivity.
Defined.

(** C7: when the credentials loaded from the token file are expired and
    carry a refresh token, exactly one refresh call and no interactive
    flow take place, and once the refresh has returned, the token file
    holds the serialized refreshed credentials. *)
Theorem expired_token_refreshed {W : Type} (ext : Externals W) (cfg : Settings)
    (w w1 : W) (text : string) (creds : Credentials) :
  from_authorized_user_file ext text w = (inr creds, w1) →
  expired creds = true →
  truthy (refresh_token creds) = true →
  count is_refresh
    (calls (final (run ext cfg (initial w (Some text))))) = 1 ∧
  count is_run_local_server
    (calls (final (run ext cfg (initial w (Some text))))) = 0 ∧
  ∀ refreshed w2,
    refresh ext creds w1 = (inr refreshed, w2) →
    token_file (final (run ext cfg (initial w (Some text)))) =
      Some (to_json ext refreshed).
Proof.
  intros Hload Hexpired Htoken.
  assert (valid creds = false) as Hvalid.
  { unfold valid. rewrite Hexpired. by destruct (token creds). }
  destruct (run_keeps_authorization ext cfg (initial w (Some text)) eq_refl)
    as [-> _].
  rewrite !run_auth_counts by done.
  unfold_authorize. simpl. rewrite Hload. simpl.
  rewrite Hvalid, Hexpired, Htoken. simpl.
  destruct (refresh ext creds w1) as [[e|refreshed] w2]; simpl;
    split_and!; try done; by intros ? ? [= <- _].
Qed.

Lemma expired_token_refreshed_witness :
  count is_refresh
    (calls (final (run Scenario.ext Scenario.cfg (initial tt (Some "stale"))))) = 1 ∧
  count is_run_local_server
    (calls (final (run Scenario.ext Scenario.cfg (initial tt (Some "stale"))))) = 0 ∧
  token_file (final (run Scenario.ext Scenario.cfg (initial tt (Some "stale"))))
    = Some (to_json Scenario.ext Scenario.fresh).
Proof.
  destruct (expired_token_refreshed Scenario.ext Scenario.cfg tt tt "stale"
              Scenario.stale eq_refl eq_refl eq_refl) as (Hone & Hnone & Hfile).
  split_and!; [exact Hone | exact Hnone |].
  apply (Hfile Scenario.fresh tt). reflexivity.
Defined.

(** C8: when there is no token file and the client secrets load, the
    interactive flow runs exactly once, no refresh call takes place, and
    once the flow has returned, the token file holds the serialized
    credentials it returned. *)
Theorem no_token_interactive_flow {W : Type} (ext : Externals W)
    (cfg : Settings) (w w1 : W) :
  from_client_secrets_file ext w = (inr tt, w1) →
  count is_run_local_server
    (calls (final (run ext cfg (initial w None)))) = 1 ∧
  count is_refresh (calls (final (run ext cfg (initial w None)))) = 0 ∧
  ∀ granted w2,
    run_local_server ext w1 = (inr granted, w2) →
    token_file (final (run ext cfg (initial w None))) =
      Some (to_json ext granted).
Proof.
  intros Hsecrets.
  destruct (run_keeps_authorization ext cfg (initial w None) eq_refl)
    as [-> _].
  rewrite !run_auth_counts by done.
  unfold_authorize. simpl. rewrite Hsecrets. simpl.
  destruct (run_local_server ext w1) as [[e|granted] w2]; simpl;
    split_and!; try done; by intros ? ? [= <- _].
Qed.

Lemma no_token_interactive_flow_witness :
  count is_run_local_server
    (calls (final (run Scenario.ext Scenario.cfg (initial tt None)))) = 1 ∧
  count is_refresh
    (calls (final (run Scenario.ext Scenario.cfg (initial tt None)))) = 0 ∧
  token_file (final (run Scenario.ext Scenario.cfg (initial tt None)))
    = Some (to_json Scenario.ext Scenario.granted).
Proof.
  destruct (no_token_interactive_flow Scenario.ext Scenario.cfg tt tt eq_refl)
    as (Hone & Hnone & Hfile).
  split_and!; [exact Hone | exact Hnone |].
  apply (Hfile Scenario.granted tt). reflexivity.
Defined.

(** ** Events with a missing field *)

(** C10 as stated fails: with no keyword configured, the condition does
    not read the "summary" of an event whose eventType is not
    "outOfOffice", and returns although that field is missing. *)
Lemma summary_not_read_counterexample :
  Scenario.untitled !! "eventType" = Some (VStr "default") ∧
  Scenario.untitled !! "summary" = None ∧
  qualifies lower_ascii [] Scenario.untitled = inr false.
Proof. split_and!; reflexivity. Qed.

(** C10, as the code has it: the condition always reads "eventType" and
    raises KeyError when it is missing; it reads "summary" when the type
    is not "outOfOffice" and there is at least one keyword, and raises
    KeyError when it is then missing; it returns exactly for the events
    that have an "eventType" and, unless that is "outOfOffice" or no
    keyword is configured, a "summary" that is a string.  When it raises
    on an event the API returned, the exception is not an API error and
    is not caught: it leaves [main], and the process ends with exit
    status 1. *)
Theorem missing_field_exception_uncaught {W : Type} (ext : Externals W)
    (cfg : Settings) (w : W) (token_json : option string) (e : event) :
  (e !! "eventType" = None →
   qualifies (str_lower ext) (keywords cfg) e = inl (KeyError "eventType")) ∧
  (∀ ty, e !! "eventType" = Some ty → ty ≠ VStr "outOfOffice" →
         keywords cfg ≠ [] → e !! "summary" = None →
         qualifies (str_lower ext) (keywords cfg) e = inl (KeyError "summary")) ∧
  ((∃ b : bool, qualifies (str_lower ext) (keywords cfg) e = inr b) ↔
   ∃ ty, e !! "eventType" = Some ty ∧
         (ty = VStr "outOfOffice" ∨ keywords cfg = [] ∨
          ∃ summary, e !! "summary" = Some (VStr summary))) ∧
  (∀ request response x,
     CallExecute request (inr response) ∈
       calls (final (run ext cfg (initial w token_json))) →
     e ∈ get_items response →
     qualifies (str_lower ext) (keywords cfg) e = inl x →
     ∃ x', uncaught (run ext cfg (initial w token_json)) = Some x' ∧
           (∀ detail, x' ≠ HttpError detail) ∧
           exit_status (run ext cfg (initial w token_json)) = 1%Z).
Proof.
  split_and!.
  - apply qualifies_missing_type.
  - apply qualifies_missing_summary.
  - apply qualifies_returns_iff.
  - intros request response x Hin He Hx.
    destruct (filter_events_raises_on _ _ _ _ _ He Hx) as [x' Hx'].
    destruct (run_filter_raises ext cfg w token_json _ _ _ Hin Hx')
      as (? & ? & ? & ?).
    by exists x'.
Qed.

Lemma missing_field_exception_uncaught_witness :
  qualifies lower_ascii ["Vacation"] Scenario.untitled = inl (KeyError "summary") ∧
  ∃ x', uncaught (run Scenario.ext Scenario.cfg_untitled
                    (initial tt (Some "fresh"))) = Some x' ∧
        (∀ detail, x' ≠ HttpError detail) ∧
        exit_status (run Scenario.ext Scenario.cfg_untitled
                       (initial tt (Some "fresh"))) = 1%Z.
Proof.
  destruct (missing_field_exception_uncaught Scenario.ext Scenario.cfg_untitled
              tt (Some "fresh") Scenario.untitled) as (_ & Hsummary & _ & Hrun).
  split.
  - apply (Hsummary (VStr "default")); [reflexivity | discriminate..| reflexivity].
  - apply (Hrun (Scenario.request "untitled")
             {| items := Some [Scenario.untitled] |} (KeyError "summary")).
    + apply (list_elem_of_lookup_2 _ 1). reflexivity.
    + left.
    + reflexivity.
Defined.

(** * Further properties of the script *)

(** ** More on the comprehension of lines 67-71 *)

Lemma any_keyword_permutation (lower : string -> string) (e : event)
    (kws kws' : list string) :
  kws ≡ₚ kws' → any_keyword lower e kws = any_keyword lower e kws'.
Proof.
  induction 1 as [|k kws kws' _ IH|k1 k2 kws|kws1 kws2 kws3 _ IH1 _ IH2].
  - done.
  - simpl. by rewrite IH.
  - simpl. unfold getitem.
    destruct (e !! "summary") as [[s|]|]; simpl; [|done..].
    by destruct (contains (lower k1) (lower s)),
                (contains (lower k2) (lower s)).
  - congruence.
Qed.

Lemma qualifies_permutation (lower : string -> string) (e : event)
    (kws kws' : list string) :
  kws ≡ₚ kws' → qualifies lower kws e = qualifies lower kws' e.
Proof.
  intros Hp. unfold qualifies.
  destruct (getitem e "eventType") as [x|ty]; simpl; [done|].
  destruct (eq_str ty "outOfOffice"); [done|].
  by apply any_keyword_permutation.
Qed.

Lemma summary_has_keyword_mono (lower : string -> string) (e : event)
    (kws extra : list string) :
  summary_has_keyword lower kws e →
  summary_has_keyword lower (kws ++ extra) e.
Proof.
  intros (s & k & Hs & Hin & Hocc). exists s, k.
  split_and!; [done | | done]. apply elem_of_app. by left.
Qed.

Lemma qualifies_more_keywords (lower : string -> string) (e : event)
    (kws extra : list string) (b : bool) :
  qualifies lower kws e = inr true →
  qualifies lower (kws ++ extra) e = inr b → b = true.
Proof.
  intros Ht Hb.
  destruct (qualifies_returns_has_type lower e kws true Ht) as [ty Hty].
  apply (qualifies_true lower e kws ty Hty) in Ht.
  assert (qualifies lower (kws ++ extra) e = inr true) as Ht'.
  { apply (qualifies_true lower e (kws ++ extra) ty Hty).
    destruct Ht as [?|?]; [by left | right].
    by apply summary_has_keyword_mono. }
  congruence.
Qed.

(** X1: the comprehension returns a sublist of its input: the events kept
    are events of the input, in the order of the input, none repeated
    more often than the input has it. *)
Theorem filter_events_sublist (lower : string -> string) (kws : list string)
    (events kept : list event) :
  filter_events lower kws events = inr kept → kept `sublist_of` events.
Proof.
  revert kept. induction events as [|e events IH]; intros kept; simpl.
  - by intros [= <-].
  - destruct (qualifies lower kws e) as [x|keep]; simpl; [done|].
    destruct (filter_events lower kws events) as [x|rest]; simpl; [done|].
    intros [= <-]. specialize (IH rest eq_refl).
    destruct keep; [by apply sublist_skip | by apply sublist_cons].
Qed.

Lemma filter_events_sublist_witness :
  [Scenario.vacation; Scenario.away] `sublist_of`
  [Scenario.vacation; Scenario.standup; Scenario.away].
Proof.
  apply (filter_events_sublist lower_ascii ["Vacation"]). reflexivity.
Defined.

(** X2: the order of the keywords in the settings does not matter: on
    keyword lists that are permutations of each other the comprehension
    returns the same events or raises the same exception. *)
Theorem filter_events_keyword_order (lower : string -> string)
    (kws kws' : list string) (events : list event) :
  kws ≡ₚ kws' →
  filter_events lower kws events = filter_events lower kws' events.
Proof.
  intros Hp. induction events as [|e events IH]; simpl; [done|].
  by rewrite (qualifies_permutation lower e kws kws' Hp), IH.
Qed.

Lemma filter_events_keyword_order_witness :
  filter_events lower_ascii ["holiday"; "vacation"]
    [Scenario.vacation; Scenario.standup] =
  filter_events lower_ascii ["vacation"; "holiday"]
    [Scenario.vacation; Scenario.standup].
Proof.
  apply filter_events_keyword_order. apply Permutation_swap.
Defined.

(** X3: configuring more keywords never drops an event: when the
    comprehension returns with the keywords [kws] and with the keywords
    [kws ++ extra], what it kept with [kws] is a sublist of what it keeps
    with [kws ++ extra]. *)
Theorem filter_events_more_keywords (lower : string -> string)
    (kws extra : list string) (events kept kept' : list event) :
  filter_events lower kws events = inr kept →
  filter_events lower (kws ++ extra) events = inr kept' →
  kept `sublist_of` kept'.
Proof.
  revert kept kept'. induction events as [|e events IH]; intros kept kept'; simpl.
  - by intros [= <-] [= <-].
  - destruct (qualifies lower kws e) as [x|keep] eqn:Hq; simpl; [done|].
    destruct (filter_events lower kws events) as [x|rest]; simpl; [done|].
    intros [= <-].
    destruct (qualifies lower (kws ++ extra) e) as [x|keep'] eqn:Hq';
      simpl; [done|].
    destruct (filter_events lower (kws ++ extra) events) as [x|rest'];
      simpl; [done|].
    intros [= <-]. specialize (IH rest rest' eq_refl eq_refl).
    destruct keep.
    + rewrite (qualifies_more_keywords lower e kws extra keep' Hq Hq').
      by apply sublist_skip.
    + destruct keep'; [by apply sublist_cons | done].
Qed.

Lemma filter_events_more_keywords_witness :
  [Scenario.vacation; Scenario.away] `sublist_of`
  [Scenario.vacation; Scenario.standup; Scenario.away].
Proof.
  apply (filter_events_more_keywords lower_ascii ["Vacation"] ["stand"]
           [Scenario.vacation; Scenario.standup; Scenario.away]);
    reflexivity.
Defined.

(** X4: an empty keyword selects every event that has a type and a
    summary: the empty string occurs in every string.  ([str.lower] maps
    the empty string to itself.) *)
Theorem empty_keyword_matches_all (lower : string -> string)
    (kws : list string) (e : event) (ty : value) (summary : string) :
  lower "" = "" → "" ∈ kws →
  e !! "eventType" = Some ty → e !! "summary" = Some (VStr summary) →
  qualifies lower kws e = inr true.
Proof.
  intros Hlower Hin Hty Hs. apply (qualifies_true lower e kws ty Hty).
  right. exists summary, "". split_and!; [done..|].
  rewrite Hlower. by exists "", (lower summary).
Qed.

Lemma empty_keyword_matches_all_witness :
  qualifies lower_ascii ["vacation"; ""] Scenario.standup = inr true.
Proof.
  apply (empty_keyword_matches_all lower_ascii ["vacation"; ""]
           Scenario.standup (VStr "default") "Standup").
  - reflexivity.
  - right. left.
  - reflexivity.
  - reflexivity.
Defined.

(** X5: with no keyword configured the comprehension never looks at a
    summary: on events that all have an "eventType" it returns, and keeps
    exactly the events of type "outOfOffice". *)
Theorem no_keywords_only_out_of_office (lower : string -> string)
    (events : list event) :
  Forall (λ e : event, is_Some (e !! "eventType")) events →
  ∃ kept, filter_events lower [] events = inr kept ∧
          ∀ e, e ∈ kept ↔ e ∈ events ∧ is_out_of_office e.
Proof.
  intros Hall.
  assert (∃ kept, filter_events lower [] events = inr kept) as [kept Hkept].
  { induction Hall as [|e events [ty Hty] _ [rest IH]]; [by exists []|].
    simpl. unfold qualifies, getitem. rewrite Hty. simpl.
    destruct (eq_str ty "outOfOffice"); simpl; rewrite IH; simpl; eauto. }
  exists kept. split; [done|]. intros e.
  destruct (filter_events_inv lower [] events kept Hkept) as [_ ->].
  split; intros [Hin Hq]; (split; [done|]).
  - destruct (qualifies_returns_has_type lower e [] true Hq) as [ty Hty].
    destruct (proj1 (qualifies_true lower e [] ty Hty) Hq)
      as [Hooo|(? & ? & _ & Hnil & _)].
    + unfold is_out_of_office. congruence.
    + by apply elem_of_nil in Hnil.
  - apply (qualifies_true lower e [] _ Hq). by left.
Qed.

Lemma no_keywords_only_out_of_office_witness :
  ∃ kept, filter_events lower_ascii [] [Scenario.untitled; Scenario.away]
          = inr kept ∧
          ∀ e, e ∈ kept ↔
               e ∈ [Scenario.untitled; Scenario.away] ∧ is_out_of_office e.
Proof.
  apply no_keywords_only_out_of_office.
  repeat constructor; by eexists.
Defined.

Lemma ascii_lower_idempotent (c : ascii) :
  ascii_lower (ascii_lower c) = ascii_lower c.
Proof. by destruct c as [[] [] [] [] [] [] [] []]. Qed.

Lemma lower_ascii_idempotent (s : string) :
  lower_ascii (lower_ascii s) = lower_ascii s.
Proof.
  induction s as [|c s IH]; simpl; [done|].
  by rewrite ascii_lower_idempotent, IH.
Qed.

Lemma any_keyword_lowered_keywords (lower : string -> string) (e : event)
    (kws : list string) :
  (∀ s, lower (lower s) = lower s) →
  any_keyword lower e (map lower kws) = any_keyword lower e kws.
Proof.
  intros Hidem. induction kws as [|k kws IH]; simpl; [done|].
  by rewrite Hidem, IH.
Qed.

Lemma any_keyword_lowered_summary (lower : string -> string) (e : event)
    (kws : list string) (summary : string) :
  (∀ s, lower (lower s) = lower s) →
  e !! "summary" = Some (VStr summary) →
  any_keyword lower (<["summary" := VStr (lower summary)]> e) kws =
  any_keyword lower e kws.
Proof.
  intros Hidem Hs. induction kws as [|k kws IH]; simpl; [done|].
  unfold getitem. rewrite lookup_insert_eq, Hs. simpl.
  by rewrite Hidem, IH.
Qed.

(** X6: the condition is case-insensitive: as [str.lower] is idempotent,
    writing the keywords in lower case, or the summary of the event in
    lower case, changes nothing to what the condition returns or raises. *)
Theorem qualifies_case_insensitive (lower : string -> string)
    (kws : list string) (e : event) :
  (∀ s, lower (lower s) = lower s) →
  qualifies lower (map lower kws) e = qualifies lower kws e ∧
  ∀ summary, e !! "summary" = Some (VStr summary) →
             qualifies lower kws (<["summary" := VStr (lower summary)]> e) =
             qualifies lower kws e.
Proof.
  intros Hidem. split.
  - unfold qualifies. destruct (getitem e "eventType") as [x|ty]; simpl; [done|].
    destruct (eq_str ty "outOfOffice"); [done|].
    by apply any_keyword_lowered_keywords.
  - intros summary Hs. unfold qualifies, getitem.
    rewrite lookup_insert_ne by done.
    destruct (e !! "eventType") as [ty|]; simpl; [|done].
    destruct (eq_str ty "outOfOffice"); [done|].
    by apply any_keyword_lowered_summary.
Qed.

Lemma qualifies_case_insensitive_witness :
  qualifies lower_ascii (map lower_ascii ["VACATION"]) Scenario.vacation =
  qualifies lower_ascii ["VACATION"] Scenario.vacation ∧
  ∀ summary, Scenario.vacation !! "summary" = Some (VStr summary) →
             qualifies lower_ascii ["VACATION"]
               (<["summary" := VStr (lower_ascii summary)]> Scenario.vacation) =
             qualifies lower_ascii ["VACATION"] Scenario.vacation.
Proof.
  apply (qualifies_case_insensitive lower_ascii ["VACATION"] Scenario.vacation).
  exact lower_ascii_idempotent.
Defined.

(** ** More on the run *)

Lemma loop_trace_complete (lower : string -> string) (kws : list string)
    (calendars : list string) (before after : report) (trace : list call) :
  loop_trace lower kws calendars before trace (inr after) →
  length trace = length calendars.
Proof.
  intros H. remember (inr after) as r eqn:Hr. revert Hr.
  induction H; intros Hr; try done; simpl; f_equal; auto.
Qed.

(** X7: the calendars queried are always an initial part of the configured
    sequence, in its order: no other calendar is queried and none is
    skipped; when a report is printed every configured calendar has been
    queried. *)
Theorem queries_follow_configuration {W : Type} (ext : Externals W)
    (cfg : Settings) (w : W) (token_json : option string) :
  (∃ n, queried (calls (final (run ext cfg (initial w token_json)))) =
          take n (calendar_id cfg)) ∧
  ∀ calendars,
    PrintedReport calendars ∈
      stdout (final (run ext cfg (initial w token_json))) →
    queried (calls (final (run ext cfg (initial w token_json)))) =
      calendar_id cfg.
Proof.
  split.
  - destruct (run_loop_spec ext cfg w token_json)
      as (auth & trace & -> & Hne & Hcases).
    rewrite queried_app, (queried_no_execute auth Hne). simpl.
    destruct Hcases as [[-> _]|(r & Hloop & _)]; [by exists 0|].
    exists (length trace). by eapply loop_trace_queried.
  - intros calendars Hin.
    destruct (printed_report_trace ext cfg w token_json calendars Hin)
      as (auth & trace & -> & Hne & Hloop).
    rewrite queried_app, (queried_no_execute auth Hne). simpl.
    rewrite (loop_trace_queried _ _ _ _ _ _ Hloop),
      (loop_trace_complete _ _ _ _ _ _ Hloop).
    apply firstn_all.
Qed.

(** Without a call of the interactive flow, authorization prints
    nothing. *)
Lemma authorize_quiet {W : Type} (ext : Externals W) (s : State W) :
  calls s = [] →
  count is_run_local_server (calls (authorize ext s).2) = 0 →
  stdout (authorize ext s).2 = stdout s.
Proof.
  destruct s as [w tok out cs]. simpl. intros ->. unfold_authorize. simpl.
  destruct tok as [text|]; simpl; ask_oracles ext; unfold count; simpl;
    done.
Qed.

(** X9: standard output starts with what authorization left there, which
    is text and is empty unless the interactive flow was called.  After
    that a run either prints exactly one thing, the report or the line
    "An error occurred: ..." of the handler, and ends with exit status 0,
    or prints nothing more and ends with exit status 1 on an exception
    that left [main]. *)
Theorem exit_status_and_output {W : Type} (ext : Externals W)
    (cfg : Settings) (w : W) (token_json : option string) :
  ((exit_status (run ext cfg (initial w token_json)) = 0%Z ∧
    uncaught (run ext cfg (initial w token_json)) = None ∧
    ∃ p, stdout (final (run ext cfg (initial w token_json))) =
           authorization_output ext w token_json ++ [p] ∧
         ((∃ calendars, p = PrintedReport calendars) ∨
          (∃ detail, p = PrintedText ("An error occurred: " +:+ detail)))) ∨
   (exit_status (run ext cfg (initial w token_json)) = 1%Z ∧
    is_Some (uncaught (run ext cfg (initial w token_json))) ∧
    stdout (final (run ext cfg (initial w token_json))) =
      authorization_output ext w token_json)) ∧
  ∃ lines,
    authorization_output ext w token_json = map PrintedText lines ∧
    (count is_run_local_server
       (calls (final (run ext cfg (initial w token_json)))) = 0 →
     lines = []).
Proof.
  split.
  - unfold authorization_output.
    destruct (run_spec ext cfg (initial w token_json))
      as [(e & _ & Hfin & Hunc & Hexit)
         |(creds & trace & r & _ & _ & _ & _ & Hend)].
    + right. rewrite Hfin, Hunc. split_and!; [done | by eexists | done].
    + destruct r as [[]|calendars]; simpl in Hend;
        destruct Hend as (Hexit & Hunc & Hstd); rewrite Hexit, Hunc, Hstd;
        first [ left; split_and!; [done | done |];
                eexists; split; [done|]; by eauto
              | right; split_and!; [done | by eexists | done] ].
  - destruct (authorization_output_prompt ext w token_json) as [lines Hlines].
    exists lines. split; [done|]. intros Hcount.
    rewrite run_auth_counts in Hcount by done.
    pose proof (authorize_quiet ext (initial w token_json) eq_refl Hcount)
      as Hquiet.
    unfold authorization_output in Hlines. rewrite Hlines in Hquiet.
    simpl in Hquiet. by destruct lines.
Qed.

Lemma fetch_loop_requests {W : Type} (ext : Externals W) (cfg : Settings)
    (calendars : list string) (before : report) (s : State W) :
  Forall sends_fixed_parameters (calls s) →
  Forall sends_fixed_parameters (calls (fetch_loop ext cfg calendars before s).2).
Proof.
  revert before s. induction calendars as [|c calendars IH]; intros before s Hs.
  - done.
  - simpl. unfold bind, list_events.
    destruct (utcnow ext (world s)) as [now w].
    destruct (execute ext _ w) as [[e|response] w'] eqn:Hexec; simpl.
    + apply Forall_app. split; [done|]. by repeat constructor.
    + destruct (get_items response) as [|e0 events].
      * apply IH. simpl. apply Forall_app. split; [done|]. by repeat constructor.
      * unfold lift.
        destruct (filter_events (str_lower ext) (keywords cfg) (e0 :: events))
          as [e|kept]; simpl.
        -- apply Forall_app. split; [done|]. by repeat constructor.
        -- apply IH. simpl. apply Forall_app. split; [done|].
           by repeat constructor.
Qed.

(** X8: every query of a run asks for at most 10 events, with recurring
    events expanded into single ones, ordered by start time. *)
Theorem requests_fixed_parameters {W : Type} (ext : Externals W)
    (cfg : Settings) (w : W) (token_json : option string)
    (request : ListRequest) (outcome : result Response) :
  CallExecute request outcome ∈
    calls (final (run ext cfg (initial w token_json))) →
  maxResults request = 10%Z ∧ singleEvents request = true ∧
  orderBy request = "startTime".
Proof.
  assert (Forall sends_fixed_parameters
            (calls (final (run ext cfg (initial w token_json))))) as Hall.
  { set (s := initial w token_json).
    destruct (authorize_frame ext s) as (_ & auth & Hauth & Hne).
    assert (Forall sends_fixed_parameters (calls (authorize ext s).2)) as Hs1.
    { rewrite Hauth. apply Forall_app. split; [constructor|].
      eapply Forall_impl; [exact Hne|]. by intros [| |rq o] Hc; simpl in *. }
    unfold run, main, bind.
    destruct (authorize ext s) as [[e|creds] s1]; simpl in *; [done|].
    unfold try_except_HttpError, try_body, bind, extern.
    destruct (build ext creds (world s1)) as [[e|[]] w'].
    - by destruct e.
    - set (s2 := {| world := w'; token_file := token_file s1;
                    stdout := stdout s1; calls := calls s1 |}).
      pose proof (fetch_loop_requests ext cfg (calendar_id cfg) ∅ s2 Hs1) as Hl.
      destruct (fetch_loop ext cfg (calendar_id cfg) ∅ s2) as [[e|rep] s3];
        simpl in *; [by destruct e | done]. }
  intros Hin. rewrite List.Forall_forall in Hall.
  apply list_elem_of_In in Hin. exact (Hall _ Hin).
Qed.

Lemma requests_fixed_parameters_witness :
  maxResults (Scenario.request "quiet") = 10%Z ∧
  singleEvents (Scenario.request "quiet") = true ∧
  orderBy (Scenario.request "quiet") = "startTime".
Proof.
  apply (requests_fixed_parameters Scenario.ext Scenario.cfg tt (Some "fresh")
           (Scenario.request "quiet") (inr {| items := Some [Scenario.standup] |})).
  apply (list_elem_of_lookup_2 _ 2). reflexivity.
Defined.

Lemma loop_trace_configured (lower : string -> string) (kws : list string)
    (calendars : list string) (before : report) (trace : list call)
    (r : result report) (request : ListRequest) (outcome : result Response) :
  loop_trace lower kws calendars before trace r →
  CallExecute request outcome ∈ trace →
  calendarId request ∈ calendars.
Proof.
  induction 1; intros Hin.
  - by apply elem_of_nil in Hin.
  - apply list_elem_of_singleton in Hin. injection Hin as -> _. subst. by left.
  - apply elem_of_cons in Hin as [Heq|Hin]; [|right; auto].
    injection Heq as -> _. subst. by left.
  - apply list_elem_of_singleton in Hin. injection Hin as -> _. subst. by left.
  - apply elem_of_cons in Hin as [Heq|Hin]; [|right; auto].
    injection Heq as -> _. subst. by left.
Qed.

(** X10: every key of the printed report is a configured calendar, and
    the report lists under it nothing but events the API returned for
    that calendar, on which the condition is true. *)
Theorem report_events_sound {W : Type} (ext : Externals W) (cfg : Settings)
    (w : W) (token_json : option string) (calendars : report) (c : string)
    (l : list event) :
  PrintedReport calendars ∈
    stdout (final (run ext cfg (initial w token_json))) →
  calendars !! c = Some l →
  c ∈ calendar_id cfg ∧
  ∀ e, e ∈ l →
    qualifies (str_lower ext) (keywords cfg) e = inr true ∧
    ∃ request response,
      CallExecute request (inr response) ∈
        calls (final (run ext cfg (initial w token_json))) ∧
      calendarId request = c ∧ e ∈ get_items response.
Proof.
  intros Hin Hl.
  destruct (printed_report_trace ext cfg w token_json calendars Hin)
    as (auth & trace & Hc & Hne & Hloop).
  destruct (loop_trace_key _ _ _ _ _ _ _ _ Hloop Hl)
    as [Hempty|(rq & rs & Hrq & Hcal & _ & Hfilter)].
  { by rewrite lookup_empty in Hempty. }
  split.
  - rewrite <- Hcal. by eapply loop_trace_configured.
  - intros e He.
    destruct (filter_events_inv _ _ _ _ Hfilter) as [_ Hiff].
    apply Hiff in He as [He Hq]. split; [done|].
    exists rq, rs. rewrite Hc. split_and!; [|done..].
    apply elem_of_app. by right.
Qed.

Lemma report_events_sound_witness :
  "quiet" ∈ calendar_id Scenario.cfg ∧
  ∀ e, e ∈ [] →
    qualifies lower_ascii ["Vacation"] e = inr true ∧
    ∃ request response,
      CallExecute request (inr response) ∈
        calls (final (run Scenario.ext Scenario.cfg
                        (initial tt (Some "fresh")))) ∧
      calendarId request = "quiet" ∧ e ∈ get_items response.
Proof.
  apply (report_events_sound Scenario.ext Scenario.cfg tt (Some "fresh")
           Scenario.expected_report "quiet" []).
  - apply list_elem_of_singleton. reflexivity.
  - reflexivity.
Defined.

(** X12: an exception of a query that is not an API error is not handled:
    it is the last call of the run, the exception leaves [main], the
    script prints nothing (standard output holds what authorization left
    there) and the exit status is 1. *)
Theorem other_query_error_uncaught {W : Type} (ext : Externals W)
    (cfg : Settings) (w : W) (token_json : option string) (i : nat)
    (request : ListRequest) (e : exn) :
  calls (final (run ext cfg (initial w token_json))) !! i =
    Some (CallExecute request (inl e)) →
  (∀ detail, e ≠ HttpError detail) →
  uncaught (run ext cfg (initial w token_json)) = Some e ∧
  exit_status (run ext cfg (initial w token_json)) = 1%Z ∧
  stdout (final (run ext cfg (initial w token_json))) =
    authorization_output ext w token_json ∧
  length (calls (final (run ext cfg (initial w token_json)))) = S i.
Proof.
  intros Hi Hother.
  destruct (run_loop_spec ext cfg w token_json)
    as (auth & trace & Hc & Hne & Hcases).
  rewrite Hc in Hi |- *.
  destruct (execute_at_in_trace auth trace i _ _ Hne Hi) as (j & -> & Hj).
  destruct Hcases as [[-> _]|(r & Hloop & Hend)]; [done|].
  destruct (loop_trace_raise _ _ _ _ _ _ _ _ _ Hloop Hj) as (-> & Hlen & _).
  rewrite length_app, Hlen.
  destruct e; simpl in Hend; [by destruct (Hother detail)|..];
    destruct Hend as (? & ? & ?); split_and!; try done; lia.
Qed.

Lemma other_query_error_uncaught_witness :
  uncaught (run Variants.ext_no_network Scenario.cfg (initial tt (Some "fresh")))
    = Some (OtherError "TransportError") ∧
  exit_status (run Variants.ext_no_network Scenario.cfg
                 (initial tt (Some "fresh"))) = 1%Z ∧
  stdout (final (run Variants.ext_no_network Scenario.cfg
                   (initial tt (Some "fresh")))) = [] ∧
  length (calls (final (run Variants.ext_no_network Scenario.cfg
                          (initial tt (Some "fresh"))))) = 1.
Proof.
  apply (other_query_error_uncaught Variants.ext_no_network Scenario.cfg tt
           (Some "fresh") 0 (Scenario.request "team")).
  - reflexivity.
  - discriminate.
Defined.

(** An entry of the mapping outlives the queries that do not return
    events for its calendar. *)
Lemma loop_trace_entry_kept (lower : string -> string) (kws : list string)
    (calendars : list string) (before after : report) (trace : list call)
    (c : string) (l : list event) :
  loop_trace lower kws calendars before trace (inr after) →
  before !! c = Some l →
  (∀ request response,
     CallExecute request (inr response) ∈ trace →
     calendarId request = c → get_items response = []) →
  after !! c = Some l.
Proof.
  intros H. remember (inr after) as r eqn:Hr. revert Hr.
  induction H; intros Hr Hb Hnone; try done.
  - by injection Hr as ->.
  - apply IHloop_trace; [done..|].
    intros rq rs Hin. apply Hnone. by right.
  - apply IHloop_trace; [done| |].
    + destruct (decide (calendar = c)) as [->|Hne].
      * destruct H0. eapply Hnone; [by left | done].
      * by rewrite lookup_insert_ne.
    + intros rq rs Hin. apply Hnone. by right.
Qed.

Lemma loop_trace_last_wins (lower : string -> string) (kws : list string)
    (calendars : list string) (before after : report)
    (earlier later : list call) (request : ListRequest) (response : Response) :
  loop_trace lower kws calendars before
    (earlier ++ CallExecute request (inr response) :: later) (inr after) →
  get_items response ≠ [] →
  (∀ request' response',
     CallExecute request' (inr response') ∈ later →
     calendarId request' = calendarId request → get_items response' = []) →
  ∃ kept, filter_events lower kws (get_items response) = inr kept ∧
          after !! calendarId request = Some kept.
Proof.
  intros H. remember (earlier ++ CallExecute request (inr response) :: later)
    as trace eqn:Ht. remember (inr after) as r eqn:Hr.
  revert earlier Ht Hr. induction H; intros earlier Ht Hr Hitems Hnone;
    try done.
  - by destruct earlier.
  - destruct earlier as [|c0 earlier]; simpl in Ht.
    + injection Ht as ? ? ?. by subst.
    + injection Ht as ? ?. subst. by eapply IHloop_trace.
  - destruct earlier as [|c0 earlier]; simpl in Ht.
    + injection Ht as ? ? ?. subst. exists kept. split; [done|].
      eapply loop_trace_entry_kept; [done | | done].
      by rewrite lookup_insert_eq.
    + injection Ht as ? ?. subst. by eapply IHloop_trace.
Qed.

(** X11: when a calendar is queried more than once, the printed report
    lists under it the events kept from the last query that returned
    events; later queries that return none leave the entry as it is. *)
Theorem last_query_with_events_wins {W : Type} (ext : Externals W)
    (cfg : Settings) (w : W) (token_json : option string)
    (calendars : report) (earlier later : list call)
    (request : ListRequest) (response : Response) :
  PrintedReport calendars ∈
    stdout (final (run ext cfg (initial w token_json))) →
  calls (final (run ext cfg (initial w token_json))) =
    earlier ++ CallExecute request (inr response) :: later →
  get_items response ≠ [] →
  (∀ request' response',
     CallExecute request' (inr response') ∈ later →
     calendarId request' = calendarId request → get_items response' = []) →
  ∃ kept,
    filter_events (str_lower ext) (keywords cfg) (get_items response)
      = inr kept ∧
    calendars !! calendarId request = Some kept.
Proof.
  intros Hin Hcalls Hitems Hnone.
  destruct (printed_report_trace ext cfg w token_json calendars Hin)
    as (auth & trace & Hc & Hne & Hloop).
  rewrite Hc in Hcalls.
  assert (∃ earlier', trace =
            earlier' ++ CallExecute request (inr response) :: later)
    as [earlier' ->].
  { apply app_eq_inv in Hcalls as [(k & -> & Hk)|(k & -> & Hk)].
    - destruct k as [|c0 k]; simpl in Hk; [by exists []|].
      injection Hk as <- _. rewrite List.Forall_forall in Hne.
      destruct (Hne (CallExecute request (inr response))); [|done].
      apply List.in_or_app. right. by left.
    - by exists k. }
  by eapply loop_trace_last_wins.
Qed.

Lemma last_query_with_events_wins_witness :
  ∃ kept,
    filter_events lower_ascii ["vacation"]
      [Scenario.vacation; Scenario.standup] = inr kept ∧
    ({[ "team" := [Scenario.vacation] ]} : report) !! "team" = Some kept.
Proof.
  apply (last_query_with_events_wins Variants.ext_changing Variants.cfg_twice
           0 (Some "fresh") {[ "team" := [Scenario.vacation] ]} []
           [CallExecute (Scenario.request "team") (inr {| items := Some [] |})]
           (Scenario.request "team")
           {| items := Some [Scenario.vacation; Scenario.standup] |}).
  - apply list_elem_of_singleton. reflexivity.
  - reflexivity.
  - discriminate.
  - intros rq rs Hin _. apply list_elem_of_singleton in Hin.
    injection Hin as -> ->. reflexivity.
Defined.

(** ** More on authorization and the service *)

(** X13: an API error raised by [build], before any query, is handled
    like one of a query: the message is printed, no calendar is queried
    and the exit status is 0. *)
Theorem build_api_error_handled {W : Type} (ext : Externals W)
    (cfg : Settings) (w w' : W) (token_json : option string)
    (creds : Credentials) (s1 : State W) (detail : string) :
  authorize ext (initial w token_json) = (inr creds, s1) →
  build ext creds (world s1) = (inl (HttpError detail), w') →
  stdout (final (run ext cfg (initial w token_json))) =
    authorization_output ext w token_json ++
    [PrintedText ("An error occurred: " +:+ detail)] ∧
  queried (calls (final (run ext cfg (initial w token_json)))) = [] ∧
  exit_status (run ext cfg (initial w token_json)) = 0%Z.
Proof.
  intros Hauth Hbuild.
  destruct (authorize_frame ext (initial w token_json))
    as (_ & auth & Hcalls & Hne).
  rewrite Hauth in Hcalls. simpl in Hcalls.
  unfold authorization_output, run, main, bind. rewrite Hauth.
  unfold try_except_HttpError, try_body, bind, extern. rewrite Hbuild. simpl.
  rewrite Hcalls. split_and!; [done | | done].
  by apply queried_no_execute.
Qed.

Lemma build_api_error_handled_witness :
  stdout (final (run Variants.ext_no_service Scenario.cfg
                   (initial tt (Some "fresh")))) =
    [PrintedText "An error occurred: <HttpError 503 Service Unavailable>"] ∧
  queried (calls (final (run Variants.ext_no_service Scenario.cfg
                           (initial tt (Some "fresh"))))) = [] ∧
  exit_status (run Variants.ext_no_service Scenario.cfg
                 (initial tt (Some "fresh"))) = 0%Z.
Proof.
  apply (build_api_error_handled Variants.ext_no_service Scenario.cfg tt tt
           (Some "fresh") Scenario.fresh (initial tt (Some "fresh"))
           Variants.unavailable); reflexivity.
Defined.

Lemma authorize_raises_token_file {W : Type} (ext : Externals W)
    (s s1 : State W) (e : exn) :
  authorize ext s = (inl e, s1) → token_file s1 = token_file s.
Proof.
  unfold_authorize. destruct (token_file s) as [text|] eqn:Htok; simpl;
    ask_oracles ext; intros [= _ <-]; done.
Qed.

(** X14: authorization is outside the [try] block: when it raises, be it
    an API error, the exception leaves [main] and the run ends in the
    state authorization left.  So the script prints nothing: no report is
    on standard output, which is empty unless the interactive flow was
    called; no calendar is queried, the token file keeps its contents,
    and the exit status is 1. *)
Theorem authorization_failure_uncaught {W : Type} (ext : Externals W)
    (cfg : Settings) (w : W) (token_json : option string)
    (s1 : State W) (e : exn) :
  authorize ext (initial w token_json) = (inl e, s1) →
  uncaught (run ext cfg (initial w token_json)) = Some e ∧
  exit_status (run ext cfg (initial w token_json)) = 1%Z ∧
  final (run ext cfg (initial w token_json)) = s1 ∧
  (∀ calendars, PrintedReport calendars ∉ stdout s1) ∧
  (count is_run_local_server (calls s1) = 0 → stdout s1 = []) ∧
  queried (calls s1) = [] ∧
  token_file s1 = token_json.
Proof.
  intros Hauth.
  destruct (authorize_frame ext (initial w token_json))
    as ([lines Hout] & auth & Hcalls & Hne).
  pose proof (authorize_raises_token_file ext _ _ _ Hauth) as Htok.
  pose proof (authorize_quiet ext (initial w token_json) eq_refl) as Hquiet.
  rewrite Hauth in Hout, Hcalls, Hquiet. simpl in Hout, Hcalls, Htok, Hquiet.
  unfold run, main, bind. rewrite Hauth. simpl.
  split_and!; try done.
  - intros calendars. rewrite Hout. apply prompt_no_report.
  - rewrite Hcalls. by apply queried_no_execute.
Qed.

Lemma authorization_failure_uncaught_witness :
  uncaught (run Scenario.ext Scenario.cfg (initial tt (Some "garbage")))
    = Some (OtherError "ValueError") ∧
  exit_status (run Scenario.ext Scenario.cfg (initial tt (Some "garbage")))
    = 1%Z ∧
  final (run Scenario.ext Scenario.cfg (initial tt (Some "garbage")))
    = initial tt (Some "garbage") ∧
  (∀ calendars,
     PrintedReport calendars ∉ stdout (initial tt (Some "garbage"))) ∧
  (count is_run_local_server (calls (initial tt (Some "garbage"))) = 0 →
   stdout (initial tt (Some "garbage")) = []) ∧
  queried (calls (initial tt (Some "garbage"))) = [] ∧
  token_file (initial tt (Some "garbage")) = Some "garbage".
Proof.
  apply (authorization_failure_uncaught Scenario.ext Scenario.cfg tt
           (Some "garbage") (initial tt (Some "garbage"))).
  reflexivity.
Defined.

Lemma authorize_calls_and_file {W : Type} (ext : Externals W) (s : State W) :
  calls s = [] →
  (count is_refresh (calls (authorize ext s).2) +
     count is_run_local_server (calls (authorize ext s).2) ≤ 1)%nat ∧
  (count is_refresh (calls (authorize ext s).2) +
     count is_run_local_server (calls (authorize ext s).2) = 0 →
   token_file (authorize ext s).2 = token_file s) ∧
  ∀ creds, (authorize ext s).1 = inr creds →
           count is_refresh (calls (authorize ext s).2) +
             count is_run_local_server (calls (authorize ext s).2) = 1 →
           token_file (authorize ext s).2 = Some (to_json ext creds).
Proof.
  destruct s as [w tok out cs]. simpl. intros ->. unfold_authorize. simpl.
  destruct tok as [text|]; simpl; ask_oracles ext;
    unfold count; simpl; split_and!; try done; try lia;
    by intros ? [= <-] _.
Qed.

(** X15: a run makes at most one authorization call, a refresh or an
    interactive flow, never both; without such a call the token file
    keeps its contents, and after one that returned it holds the
    serialization of the very credentials [main] goes on with. *)
Theorem at_most_one_authorization_call {W : Type} (ext : Externals W)
    (cfg : Settings) (w : W) (token_json : option string) :
  (count is_refresh (calls (final (run ext cfg (initial w token_json)))) +
     count is_run_local_server
       (calls (final (run ext cfg (initial w token_json)))) ≤ 1)%nat ∧
  (count is_refresh (calls (final (run ext cfg (initial w token_json)))) +
     count is_run_local_server
       (calls (final (run ext cfg (initial w token_json)))) = 0 →
   token_file (final (run ext cfg (initial w token_json))) = token_json) ∧
  ∀ creds,
    (authorize ext (initial w token_json)).1 = inr creds →
    count is_refresh (calls (final (run ext cfg (initial w token_json)))) +
      count is_run_local_server
        (calls (final (run ext cfg (initial w token_json)))) = 1 →
    token_file (final (run ext cfg (initial w token_json))) =
      Some (to_json ext creds).
Proof.
  destruct (run_keeps_authorization ext cfg (initial w token_json) eq_refl)
    as [-> _].
  rewrite !run_auth_counts by done.
  exact (authorize_calls_and_file ext (initial w token_json) eq_refl).
Qed.

(** X16: credentials loaded from the token file that are not valid and
    cannot be refreshed (not expired, or without a refresh token, the
    empty string counting as none) are replaced through the interactive
    flow: once the client secrets have loaded it runs exactly once, no
    refresh is called, and the token file holds what the flow returned. *)
Theorem unrefreshable_token_interactive_flow {W : Type} (ext : Externals W)
    (cfg : Settings) (w w1 w2 : W) (text : string) (creds : Credentials) :
  from_authorized_user_file ext text w = (inr creds, w1) →
  valid creds = false →
  expired creds && truthy (refresh_token creds) = false →
  from_client_secrets_file ext w1 = (inr tt, w2) →
  count is_run_local_server
    (calls (final (run ext cfg (initial w (Some text))))) = 1 ∧
  count is_refresh
    (calls (final (run ext cfg (initial w (Some text))))) = 0 ∧
  ∀ granted w3,
    run_local_server ext w2 = (inr granted, w3) →
    token_file (final (run ext cfg (initial w (Some text)))) =
      Some (to_json ext granted).
Proof.
  intros Hload Hvalid Hrefresh Hsecrets.
  destruct (run_keeps_authorization ext cfg (initial w (Some text)) eq_refl)
    as [-> _].
  rewrite !run_auth_counts by done.
  unfold_authorize. simpl. rewrite Hload. simpl.
  rewrite Hvalid, Hrefresh. simpl. rewrite Hsecrets. simpl.
  destruct (run_local_server ext w2) as [[e|granted] w3]; simpl;
    split_and!; try done; by intros ? ? [= <- _].
Qed.

Lemma unrefreshable_token_interactive_flow_witness :
  count is_run_local_server
    (calls (final (run Variants.ext_revoked Scenario.cfg
                     (initial tt (Some "old"))))) = 1 ∧
  count is_refresh
    (calls (final (run Variants.ext_revoked Scenario.cfg
                     (initial tt (Some "old"))))) = 0 ∧
  token_file (final (run Variants.ext_revoked Scenario.cfg
                       (initial tt (Some "old")))) = Some "granted".
Proof.
  destruct (unrefreshable_token_interactive_flow Variants.ext_revoked
              Scenario.cfg tt tt tt "old" Variants.revoked
              eq_refl eq_refl eq_refl eq_refl) as (Hone & Hnone & Hfile).
  split_and!; [exact Hone | exact Hnone |].
  apply (Hfile Scenario.granted tt). reflexivity.
Defined.

(** ** The settings as the script reads them *)

Section SettingsFacts.

Context {W : Type}.
Variable ext : Externals W.
Variable safe_load : string -> result yaml_document.

(** With a cached value [settings()] changes nothing. *)
Lemma setting_cached (p : Process W) (cached : settings_map) (key : string) :
  settings_cache p = Some cached →
  setting safe_load key p = (subscript cached key, p).
Proof.
  intros Hc. unfold setting, pbind, settings, plift. by rewrite Hc.
Qed.

Lemma qualifies_with_settings_state (p : Process W) (cached : settings_map)
    (e : event) :
  settings_cache p = Some cached →
  (qualifies_with_settings ext safe_load e p).2 = p.
Proof.
  intros Hc. unfold qualifies_with_settings, pbind, plift, pret.
  destruct (getitem e "eventType") as [x|ty]; simpl; [done|].
  destruct (eq_str ty "outOfOffice"); [done|].
  rewrite (setting_cached p cached "keywords" Hc).
  by destruct (subscript cached "keywords").
Qed.

Lemma filter_with_settings_state (p : Process W) (cached : settings_map)
    (events : list event) :
  settings_cache p = Some cached →
  (filter_with_settings ext safe_load events p).2 = p.
Proof.
  intros Hc. induction events as [|e events IH]; simpl; [done|].
  unfold pbind, pret.
  pose proof (qualifies_with_settings_state p cached e Hc) as Hq.
  destruct (qualifies_with_settings ext safe_load e p) as [[x|keep] p1];
    simpl in Hq; subst p1; [done|].
  destruct (filter_with_settings ext safe_load events p) as [[x|rest] p2];
    simpl in IH; by subst p2.
Qed.

Lemma qualifies_with_settings_cached (p : Process W) (cached : settings_map)
    (kws : list string) (e : event) :
  settings_cache p = Some cached → cached !! "keywords" = Some kws →
  qualifies_with_settings ext safe_load e p =
    (qualifies (str_lower ext) kws e, p).
Proof.
  intros Hc Hk. unfold qualifies_with_settings, qualifies, pbind, plift, pret.
  destruct (getitem e "eventType") as [x|ty]; simpl; [done|].
  destruct (eq_str ty "outOfOffice"); [done|].
  rewrite (setting_cached p cached "keywords" Hc).
  unfold subscript. by rewrite Hk.
Qed.

Lemma filter_with_settings_cached (p : Process W) (cached : settings_map)
    (kws : list string) (events : list event) :
  settings_cache p = Some cached → cached !! "keywords" = Some kws →
  filter_with_settings ext safe_load events p =
    (filter_events (str_lower ext) kws events, p).
Proof.
  intros Hc Hk. induction events as [|e events IH]; simpl; [done|].
  unfold pbind, pret.
  rewrite (qualifies_with_settings_cached p cached kws e Hc Hk).
  destruct (qualifies (str_lower ext) kws e) as [x|keep]; simpl; [done|].
  rewrite IH. by destruct (filter_events (str_lower ext) kws events).
Qed.

(** Once the settings are cached, the loop is the loop of [fetch_loop]
    on the keywords they hold. *)
Lemma fetch_loop_with_settings_cached (cfg : Settings) (p : Process W)
    (cached : settings_map) (calendars : list string) (before : report) :
  settings_cache p = Some cached →
  cached !! "keywords" = Some (keywords cfg) →
  fetch_loop_with_settings ext safe_load calendars before p =
    ((fetch_loop ext cfg calendars before (base p)).1,
     with_base p (fetch_loop ext cfg calendars before (base p)).2).
Proof.
  intros Hc Hk. revert before p Hc.
  induction calendars as [|c calendars IH]; intros before p Hc.
  - simpl. unfold pret, ret. simpl. by destruct p.
  - simpl. unfold pbind, bind, on_base.
    destruct (list_events ext c (base p)) as [[e|response] s1]; simpl; [done|].
    destruct (get_items response) as [|e0 events].
    + rewrite (IH before (with_base p s1)) by done. done.
    + rewrite (filter_with_settings_cached (with_base p s1) cached
                 (keywords cfg) (e0 :: events)) by done.
      unfold lift.
      destruct (filter_events (str_lower ext) (keywords cfg) (e0 :: events))
        as [x|kept]; simpl; [done|].
      rewrite (IH (<[c := kept]> before) (with_base p s1)) by done. done.
Qed.

Lemma fetch_loop_with_settings_reads (p : Process W) (cached : settings_map)
    (calendars : list string) (before : report) :
  settings_cache p = Some cached →
  reads (fetch_loop_with_settings ext safe_load calendars before p).2 = reads p.
Proof.
  revert before p. induction calendars as [|c calendars IH]; intros before p Hc.
  - done.
  - simpl. unfold pbind, on_base.
    destruct (list_events ext c (base p)) as [[e|response] s1]; simpl; [done|].
    destruct (get_items response) as [|e0 events].
    + by rewrite (IH before (with_base p s1)).
    + pose proof (filter_with_settings_state (with_base p s1) cached
                    (e0 :: events) Hc) as Hf.
      destruct (filter_with_settings ext safe_load (e0 :: events)
                  (with_base p s1)) as [[x|kept] p2];
        simpl in Hf; subst p2; [done|].
      by rewrite (IH (<[c := kept]> before) (with_base p s1)).
Qed.

End SettingsFacts.

(** X17: when [settings.yml] parses to a document with both keys, the
    script with its calls of [settings()] does what [main] does on the
    settings the file holds: same result, same token file, output and
    calls; and the file is opened at most once, however many events are
    filtered. *)
Theorem settings_read_once_then_main {W : Type} (ext : Externals W)
    (safe_load : string -> result yaml_document) (cfg : Settings)
    (w : W) (token_json : option string) (text : string)
    (config : yaml_document) (section : settings_map) :
  safe_load text = inr config →
  config !! "settings" = Some section →
  section !! "calendar_id" = Some (calendar_id cfg) →
  section !! "keywords" = Some (keywords cfg) →
  (main_with_settings ext safe_load (start w token_json (Some text))).1 =
    (main ext cfg (initial w token_json)).1 ∧
  base (main_with_settings ext safe_load (start w token_json (Some text))).2 =
    (main ext cfg (initial w token_json)).2 ∧
  (reads (main_with_settings ext safe_load (start w token_json (Some text))).2
   ≤ 1)%nat.
Proof.
  intros Hload Hsettings Hcal Hkws.
  unfold main_with_settings, main, pbind, bind, on_base, start. simpl.
  destruct (authorize ext (initial w token_json)) as [[e|creds] s1]; simpl.
  { split_and!; [done | done | lia]. }
  unfold ptry_except_HttpError, try_except_HttpError, try_body_with_settings,
    try_body, pbind, bind, on_base, extern. simpl.
  destruct (build ext creds (world s1)) as [[e|[]] w']; simpl.
  { destruct e; simpl; split_and!; try done; lia. }
  unfold setting, settings, pbind, plift, subscript. simpl.
  rewrite Hload. simpl. rewrite Hsettings. simpl. rewrite Hcal.
  unfold ok. simpl.
  match goal with
  | |- context [fetch_loop_with_settings ext safe_load _ _ ?p] =>
      rewrite (fetch_loop_with_settings_cached ext safe_load cfg p section)
        by done
  end.
  simpl.
  destruct (fetch_loop ext cfg (calendar_id cfg) ∅ _) as [[e|calendars] s3];
    simpl; [destruct e|]; simpl; split_and!; try done; lia.
Qed.

Lemma settings_read_once_then_main_witness :
  (main_with_settings Scenario.ext Variants.parse_yaml
     (start tt (Some "fresh") (Some "full"))).1 =
    (main Scenario.ext Scenario.cfg (initial tt (Some "fresh"))).1 ∧
  base (main_with_settings Scenario.ext Variants.parse_yaml
          (start tt (Some "fresh") (Some "full"))).2 =
    (main Scenario.ext Scenario.cfg (initial tt (Some "fresh"))).2 ∧
  (reads (main_with_settings Scenario.ext Variants.parse_yaml
            (start tt (Some "fresh") (Some "full"))).2 ≤ 1)%nat.
Proof.
  apply (settings_read_once_then_main Scenario.ext Variants.parse_yaml
           Scenario.cfg tt (Some "fresh") "full"
           {[ "settings" :=
                {[ "calendar_id" := ["team"; "empty"; "quiet"; "bare"];
                   "keywords" := ["Vacation"] ]} ]}
           {[ "calendar_id" := ["team"; "empty"; "quiet"; "bare"];
              "keywords" := ["Vacation"] ]});
    reflexivity.
Defined.

Lemma setting_elsewhere {W : Type}
    (safe_load : string -> result yaml_document) (key : string)
    (p p' : Process W) :
  settings_yml p = settings_yml p' → settings_cache p = settings_cache p' →
  (setting safe_load key p').1 = (setting safe_load key p).1 ∧
  base (setting safe_load key p').2 = base p'.
Proof.
  intros Hy Hc. unfold setting, settings, pbind, plift. rewrite <- Hy, <- Hc.
  destruct (settings_cache p); simpl; [done|].
  destruct (settings_yml p) as [text|]; simpl; [|done].
  destruct (safe_load text) as [e|config]; simpl; [done|].
  by destruct (subscript config "settings").
Qed.

(** X18: the settings are read inside the [try] block, after
    authorization and [build]: when the file is missing, does not parse,
    or lacks "settings" or "calendar_id", the exception (no API error)
    leaves the script before any calendar is queried, and the script
    prints nothing (standard output holds what authorization left
    there). *)
Theorem settings_failure_before_queries {W : Type} (ext : Externals W)
    (safe_load : string -> result yaml_document)
    (w w' : W) (token_json settings_text : option string)
    (creds : Credentials) (s1 : State W) (e : exn) :
  authorize ext (initial w token_json) = (inr creds, s1) →
  build ext creds (world s1) = (inr tt, w') →
  (setting safe_load "calendar_id" (start w token_json settings_text)).1
    = inl e →
  (∀ detail, e ≠ HttpError detail) →
  (main_with_settings ext safe_load (start w token_json settings_text)).1
    = inl e ∧
  stdout (base (main_with_settings ext safe_load
                  (start w token_json settings_text)).2) =
    authorization_output ext w token_json ∧
  queried (calls (base (main_with_settings ext safe_load
                          (start w token_json settings_text)).2)) = [].
Proof.
  intros Hauth Hbuild Hsetting Hother.
  destruct (authorize_frame ext (initial w token_json))
    as (_ & auth & Hcalls & Hne).
  rewrite Hauth in Hcalls. simpl in Hcalls.
  unfold authorization_output, main_with_settings, pbind, on_base, start.
  simpl. rewrite Hauth.
  unfold ptry_except_HttpError, try_body_with_settings, pbind, on_base, extern.
  simpl. rewrite Hbuild. simpl.
  match goal with
  | |- context [setting safe_load "calendar_id" ?p] =>
      destruct (setting_elsewhere safe_load "calendar_id"
                  (start w token_json settings_text) p eq_refl eq_refl)
        as [Hres Hbase];
      destruct (setting safe_load "calendar_id" p) as [[x|calendars] p2]
  end; simpl in Hres, Hbase; rewrite Hsetting in Hres; [|done].
  injection Hres as ->.
  destruct e; simpl; [by destruct (Hother detail)|..];
    rewrite Hbase; simpl; rewrite Hcalls;
    split_and!; try done; by apply queried_no_execute.
Qed.

Lemma settings_failure_before_queries_witness :
  (main_with_settings Scenario.ext Variants.parse_yaml
     (start tt (Some "fresh") (Some "no calendars"))).1
    = inl (KeyError "calendar_id") ∧
  stdout (base (main_with_settings Scenario.ext Variants.parse_yaml
                  (start tt (Some "fresh") (Some "no calendars"))).2) = [] ∧
  queried (calls (base (main_with_settings Scenario.ext Variants.parse_yaml
                          (start tt (Some "fresh") (Some "no calendars"))).2))
    = [].
Proof.
  apply (settings_failure_before_queries Scenario.ext Variants.parse_yaml
           tt tt (Some "fresh") (Some "no calendars") Scenario.fresh
           (initial tt (Some "fresh")) (KeyError "calendar_id"));
    [reflexivity | reflexivity | reflexivity | discriminate].
Defined.

(** X19: [settings.yml] is opened at most once in a run, and not at all
    unless authorization and [build] have returned. *)
Theorem settings_file_opened_at_most_once {W : Type} (ext : Externals W)
    (safe_load : string -> result yaml_document)
    (w : W) (token_json settings_text : option string) :
  (reads (main_with_settings ext safe_load
            (start w token_json settings_text)).2 ≤ 1)%nat ∧
  (reads (main_with_settings ext safe_load
            (start w token_json settings_text)).2 = 1 →
   ∃ creds s1 w',
     authorize ext (initial w token_json) = (inr creds, s1) ∧
     build ext creds (world s1) = (inr tt, w')).
Proof.
  unfold main_with_settings, pbind, on_base, start. simpl.
  destruct (authorize ext (initial w token_json)) as [[e|creds] s1] eqn:Hauth;
    simpl.
  { split; [lia | done]. }
  unfold ptry_except_HttpError, try_body_with_settings, pbind, on_base, extern.
  simpl.
  destruct (build ext creds (world s1)) as [[e|[]] w'] eqn:Hbuild; simpl.
  { destruct e; simpl; (split; [lia | done]). }
  split; [|intros _; by exists creds, s1, w'].
  unfold setting, settings, pbind, plift. simpl.
  destruct settings_text as [text|]; simpl; [|lia].
  destruct (safe_load text) as [e|config]; simpl.
  { destruct e; simpl; lia. }
  destruct (subscript config "settings") as [e|section]; simpl.
  { destruct e; simpl; lia. }
  destruct (subscript section "calendar_id") as [e|calendars]; simpl.
  { destruct e; simpl; lia. }
  match goal with
  | |- context [fetch_loop_with_settings ext safe_load calendars ∅ ?p] =>
      pose proof (fetch_loop_with_settings_reads ext safe_load p section
                    calendars ∅ eq_refl) as Hreads;
      destruct (fetch_loop_with_settings ext safe_load calendars ∅ p)
        as [[e|ooo_events] p3]
  end; simpl in *; [destruct e|]; simpl; lia.
Qed.

(** X20: "keywords" is looked up only when an event of another type than
    "outOfOffice" is met.  With settings that lack the key, events that
    all have a type are all kept when they are all out of office, and
    make the comprehension raise KeyError "keywords" otherwise; no
    summary is read either way. *)
Theorem missing_keywords_lazy {W : Type} (ext : Externals W)
    (safe_load : string -> result yaml_document) (p : Process W)
    (section : settings_map) (events : list event) :
  settings_cache p = Some section →
  section !! "keywords" = None →
  Forall (λ e : event, is_Some (e !! "eventType")) events →
  (Forall is_out_of_office events →
   (filter_with_settings ext safe_load events p).1 = inr events) ∧
  (¬ Forall is_out_of_office events →
   (filter_with_settings ext safe_load events p).1
     = inl (KeyError "keywords")).
Proof.
  intros Hc Hk Hall.
  induction Hall as [|e events [ty Hty] _ [IHyes IHno]].
  { split; [done | intros H; destruct H; constructor]. }
  simpl. unfold pbind, pret.
  pose proof (qualifies_with_settings_state ext safe_load p section e Hc) as Hst.
  pose proof (filter_with_settings_state ext safe_load p section events Hc)
    as Hst'.
  unfold qualifies_with_settings, pbind, plift, pret, getitem in *.
  rewrite Hty in *. simpl in *.
  destruct (eq_str ty "outOfOffice") eqn:Heq.
  - apply eq_str_true in Heq as ->.
    destruct (filter_with_settings ext safe_load events p) as [[x|rest] p2];
      simpl in *; subst p2; split.
    + intros Hooo. apply Forall_cons in Hooo as [_ Hooo].
      by specialize (IHyes Hooo).
    + intros Hnot. apply IHno. intros Hooo. apply Hnot. by constructor.
    + intros Hooo. apply Forall_cons in Hooo as [_ Hooo].
      specialize (IHyes Hooo). by injection IHyes as ->.
    + intros Hnot.
      assert (¬ Forall is_out_of_office events) as Hn
        by (intros Hooo; apply Hnot; by constructor).
      by specialize (IHno Hn).
  - rewrite (setting_cached safe_load p section "keywords" Hc) in *.
    unfold subscript in *. rewrite Hk in *. simpl. split; [|done].
    intros Hooo. apply Forall_cons in Hooo as [Hooo _].
    unfold is_out_of_office in Hooo. rewrite Hty in Hooo.
    injection Hooo as ->. by vm_compute in Heq.
Qed.

Lemma missing_keywords_lazy_witness :
  (Forall is_out_of_office [Scenario.away] →
   (filter_with_settings Scenario.ext Variants.parse_yaml [Scenario.away]
      {| base := initial tt None; settings_yml := Some "no keywords";
         settings_cache := Some {[ "calendar_id" := ["team"] ]};
         reads := 1 |}).1 = inr [Scenario.away]) ∧
  (¬ Forall is_out_of_office [Scenario.away] →
   (filter_with_settings Scenario.ext Variants.parse_yaml [Scenario.away]
      {| base := initial tt None; settings_yml := Some "no keywords";
         settings_cache := Some {[ "calendar_id" := ["team"] ]};
         reads := 1 |}).1 = inl (KeyError "keywords")).
Proof.
  apply (missing_keywords_lazy Scenario.ext Variants.parse_yaml _
           {[ "calendar_id" := ["team"] ]}).
  - reflexivity.
  - reflexivity.
  - repeat constructor. by eexists.
Defined.
